(** * Storm.App: the application lifecycle coordinator

    A shallow embedding of [src/Storm.App.js] and the lifecycle properties
    proved about it.

    The module keeps process-wide state ([_apps], [_isDocReady],
    [_lockBarrier], the listeners of its private [_observable]) and every
    [App] instance keeps its own fields.  Methods of an instance are modelled
    as programs over the instance ([Prog App]), module-level functions as
    programs over the module state ([Prog World]); both emit the observable
    effects of a run (events triggered, callbacks invoked, console
    diagnostics) and may end with an uncaught exception.

    User callbacks are modelled by what they do to the [config] object they
    receive and by whether they raise.  A callback that calls back into the
    App API while it runs is outside this model. *)

From Stdlib Require Import ZArith Lia Bool.
From stdpp Require Import base list strings gmap.

Local Open Scope string_scope.
Local Open Scope list_scope.
Local Open Scope nat_scope.

(** ** Values and callbacks *)

(** [config] is a plain JS object used as a string-keyed map. *)
Abbreviation Config := (gmap string Z).

(** How a call of a user function ends. *)
Inductive completion := Returns | Raises.

(** A user function: a name to recognise it in the effect log, and its
    behaviour on the [config] object it is handed.  [config] is passed by
    reference, so the function's mutations are its first result; they
    persist also when the function raises. *)
Record callback := Callback {
  cb_name : string;
  cb_run : Config -> Config * completion
}.

(** What may be handed to [setup], [start] and [end].  The module never
    applies a registered value directly: it evaluates [v.call(null, ...)],
    so what matters of a value is whether [_.isFunction] accepts it,
    whether it is truthy, and what its [call] property is:
    - [JFun f]: a function [f], with the [call] every function inherits
      from [Function.prototype];
    - [JFalsy]: a falsy non-function ([null], [undefined], [0], ...);
      reading [call] off it raises or yields [undefined];
    - [JTruthy]: a truthy non-function without a callable [call] property
      ([42], [{}], ...);
    - [JCallable m]: a truthy non-function whose [call] property is the
      function [m] ([{call: function(thisArg, config) {...}}]).
    Built-in prototypes are taken as the language defines them. *)
Inductive jsval :=
| JFun (f : callback)
| JFalsy
| JTruthy
| JCallable (m : callback).

Definition truthy (v : jsval) : bool :=
  match v with JFalsy => false | _ => true end.

(** [_.isFunction] *)
Definition isFunction (v : jsval) : bool :=
  match v with JFun _ => true | _ => false end.

(** Whether [v.call] is a function. *)
Definition callable (v : jsval) : bool :=
  match v with JFun _ | JCallable _ => true | _ => false end.

(** The [function() {}] of [_initialize]. *)
Definition noop : callback := Callback "" (fun c => (c, Returns)).

(** ** Observable effects *)

Inductive transition := Initialize | Unload.
Inductive phase := PSetup | PStart | PEnd.
Inductive arg := AApp (i : nat) | AConfig (c : Config).

(** [Enter] is a ghost marker: the body of a one-shot transition of app
    [i] started to execute (for [Unload]: it passed the [_hasInitialized]
    test).  [Trigger i ev p] is [this.trigger(ev, p)] on app [i], with the
    contents of the payload at that moment.  [Call i p name args] is the
    evaluation of [v.call(null, args...)] for a value [v] registered on
    app [i]: [name] is the function it runs, [v] itself or [v]'s own
    [call] property. *)
Inductive effect :=
| Enter (i : nat) (t : transition)
| Trigger (i : nat) (ev : string) (payload : option Config)
| Call (i : nat) (p : phase) (name : string) (args : list arg)
| ConsoleError (msg : string).

(** ** Programs: state, effect log and uncaught exceptions *)

Inductive result (A : Type) :=
| Ok (x : A)
| Throw.
Arguments Ok {A} x.
Arguments Throw {A}.

Definition Prog (S A : Type) : Type := S -> S * list effect * result A.

Definition ret {S A} (x : A) : Prog S A := fun s => (s, [], Ok x).
Definition throw {S A} : Prog S A := fun s => (s, [], Throw).
Definition bind {S A B} (m : Prog S A) (k : A -> Prog S B) : Prog S B :=
  fun s =>
    match m s with
    | (s1, e1, Ok x) =>
        match k x s1 with
        | (s2, e2, r) => (s2, e1 ++ e2, r)
        end
    | (s1, e1, Throw) => (s1, e1, Throw)
    end.
Definition get {S} : Prog S S := fun s => (s, [], Ok s).
Definition modify {S} (f : S -> S) : Prog S unit := fun s => (f s, [], Ok tt).
Definition emit {S} (e : effect) : Prog S unit := fun s => (s, [e], Ok tt).

Declare Scope prog_scope.
Delimit Scope prog_scope with prog.
Notation "x ← y ; z" := (bind y (fun x => z))
  (at level 20, y at level 100, z at level 200) : prog_scope.
Notation "x ;; z" := (bind x (fun _ => z))
  (at level 100, z at level 200, right associativity) : prog_scope.
Local Open Scope prog_scope.

(** Sequential iteration: [_.each] over an array, a [for] loop over a
    snapshot of an array, and the dispatch of an event to its listeners in
    subscription order.  An exception ends the iteration. *)
Fixpoint each {S X} (f : X -> Prog S unit) (xs : list X) : Prog S unit :=
  match xs with
  | [] => ret tt
  | x :: rest => f x;; each f rest
  end.

(** ** The App instance *)

Record App := mkApp {
  config : Config;
  setupCalls : list jsval;
  endCall : jsval;
  startCall : jsval;
  _hasInitialized : bool;
  _isIgnited : bool;
  autoStart : bool;
  autoEnd : bool;
  (** the [ran] flags of the two [_.once] wrappers made by the constructor *)
  _initialize_ran : bool;
  _unload_ran : bool
}.

Definition set_config (c : Config) (a : App) : App :=
  mkApp c (setupCalls a) (endCall a) (startCall a) (_hasInitialized a)
        (_isIgnited a) (autoStart a) (autoEnd a) (_initialize_ran a) (_unload_ran a).
Definition set_setupCalls (l : list jsval) (a : App) : App :=
  mkApp (config a) l (endCall a) (startCall a) (_hasInitialized a)
        (_isIgnited a) (autoStart a) (autoEnd a) (_initialize_ran a) (_unload_ran a).
Definition set_endCall (v : jsval) (a : App) : App :=
  mkApp (config a) (setupCalls a) v (startCall a) (_hasInitialized a)
        (_isIgnited a) (autoStart a) (autoEnd a) (_initialize_ran a) (_unload_ran a).
Definition set_startCall (v : jsval) (a : App) : App :=
  mkApp (config a) (setupCalls a) (endCall a) v (_hasInitialized a)
        (_isIgnited a) (autoStart a) (autoEnd a) (_initialize_ran a) (_unload_ran a).
Definition set_hasInitialized (b : bool) (a : App) : App :=
  mkApp (config a) (setupCalls a) (endCall a) (startCall a) b
        (_isIgnited a) (autoStart a) (autoEnd a) (_initialize_ran a) (_unload_ran a).
Definition set_isIgnited (b : bool) (a : App) : App :=
  mkApp (config a) (setupCalls a) (endCall a) (startCall a) (_hasInitialized a)
        b (autoStart a) (autoEnd a) (_initialize_ran a) (_unload_ran a).
Definition set_initialize_ran (b : bool) (a : App) : App :=
  mkApp (config a) (setupCalls a) (endCall a) (startCall a) (_hasInitialized a)
        (_isIgnited a) (autoStart a) (autoEnd a) b (_unload_ran a).
Definition set_unload_ran (b : bool) (a : App) : App :=
  mkApp (config a) (setupCalls a) (endCall a) (startCall a) (_hasInitialized a)
        (_isIgnited a) (autoStart a) (autoEnd a) (_initialize_ran a) b.

(** [_.once(func)] of the Underscore library the module is handed as [_]:
    the wrapper sets its [ran] flag and only then calls [func], so a call
    of [func] that raises or returns early still uses the wrapper up. *)
Definition once (ran : App -> bool) (set_ran : bool -> App -> App)
    (func : Prog App unit) : Prog App unit :=
  a ← get;
  if ran a then ret tt
  else modify (set_ran true);; func.

(** *** Methods of an instance; [self] is the instance's identity *)

(** Modelled from the spec: [this.trigger(event, payload)] of the
    [Storm.Module] base (the observable primitive), which is not in the
    source file.  Listeners of an app's own events are outside the core;
    the emission is logged. *)
Definition trigger (self : nat) (ev : string) : Prog App unit :=
  a ← get; emit (Trigger self ev (Some (config a))).

Definition trigger_plain (self : nat) (ev : string) : Prog App unit :=
  emit (Trigger self ev None).

(** [f.call(null, ...)] of a registered value: a function runs on
    [this.config], and so does the [call] property of a value that has a
    function there; on any other value the expression is a [TypeError]. *)
Definition call (self : nat) (p : phase) (args : Config -> list arg)
    (f : jsval) : Prog App unit :=
  match f with
  | JFun cb | JCallable cb =>
      a ← get;
      emit (Call self p (cb_name cb) (args (config a)));;
      modify (set_config (fst (cb_run cb (config a))));;
      match snd (cb_run cb (config a)) with
      | Returns => ret tt
      | Raises => throw
      end
  | JFalsy | JTruthy => throw
  end.

(** [c[k] = v] on the plain object [config], for a number [v]: the key
    becomes an own property, or is overwritten.  The one exception is the
    key ["__proto__"] while [config] has no own property of that name: it
    then names the accessor [config] inherits from [Object.prototype], the
    assignment goes to its setter, which ignores a value that is not an
    object, and no property is made. *)
Definition assign (k : string) (v : Z) (c : Config) : Config :=
  if String.eqb k "__proto__" && negb (bool_decide (is_Some (c !! k)))
  then c else <[k:=v]> c.

(** [_.extend(c, obj)]: a loop over the enumerable properties of [obj]
    that assigns each of them to [c]. *)
Definition extend (obj c : Config) : Config := map_fold assign c obj.

(** [key] is a string ([_.isString]) or anything else, read as the object
    of its enumerable properties; [value] is a number. *)
Definition configure (self : nat) (key : string + Config) (value : Z)
    : Prog App nat :=
  match key with
  | inr obj => modify (fun a => set_config (extend obj (config a)) a);; ret self
  | inl k => modify (fun a => set_config (assign k value (config a)) a);; ret self
  end.

Definition setup (self : nat) (func : jsval) : Prog App nat :=
  (if negb (isFunction func)
      then emit (ConsoleError "Setup must have a function.") else ret tt);;
  modify (fun a => set_setupCalls (setupCalls a ++ [func]) a);;
  ret self.

Definition start (self : nat) (func : jsval) : Prog App nat :=
  (if negb (isFunction func)
      then emit (ConsoleError "Start must have a function.") else ret tt);;
  modify (set_startCall func);;
  ret self.

Definition end_ (self : nat) (func : jsval) : Prog App nat :=
  (if negb (isFunction func)
      then emit (ConsoleError "End must have a function.") else ret tt);;
  modify (set_endCall func);;
  ret self.

Definition _callSetup (self : nat) : Prog App unit :=
  a ← get;
  each (call self PSetup (fun c => [AConfig c])) (setupCalls a);;
  modify (set_setupCalls []).

Definition _callStart (self : nat) : Prog App unit :=
  a ← get;
  call self PStart (fun c => [AConfig c]) (startCall a);;
  modify (set_startCall JFalsy).

(** The prototype's [_initialize]. *)
Definition _initialize (self : nat) : Prog App unit :=
  emit (Enter self Initialize);;
  modify (fun a =>
       set_startCall (if truthy (startCall a) then startCall a else JFun noop) a);;
  modify (set_hasInitialized true);;
  trigger self "setup:before";;
  _callSetup self;;
  trigger self "setup:after";;
  trigger self "start:before";;
  _callStart self;;
  trigger self "start:after".

(** The prototype's [_unload]. *)
Definition _unload (self : nat) : Prog App unit :=
  a ← get;
  if negb (_hasInitialized a) then ret tt
  else
    emit (Enter self Unload);;
    (if truthy (endCall a)
        then call self PEnd (fun c => [AApp self; AConfig c]) (endCall a)
        else ret tt);;
    trigger_plain self "end".

(** The instance's own [_initialize] and [_unload] properties, assigned by
    the constructor. *)
Definition this_initialize (self : nat) : Prog App unit :=
  once _initialize_ran set_initialize_ran (_initialize self).

Definition this_unload (self : nat) : Prog App unit :=
  once _unload_ran set_unload_ran (_unload self).

(** The [opts] argument of [smother]; an absent [isSilent] is falsy. *)
Record SmotherOpts := { isSilent : bool }.

Definition smother (self : nat) (opts : option SmotherOpts) : Prog App nat :=
  a ← get;
  if negb (_hasInitialized a) then ret self
  else
    let opts := default {| isSilent := false |} opts in
    (if negb (isSilent opts) then this_unload self else ret tt);;
    ret self.

(** ** The module state *)

Record World := mkWorld {
  _apps : list App;
  _isDocReady : bool;
  _lockBarrier : Z;
  (** listeners of [_observable], in subscription order; every listener is
      a method bound to an app, recorded by the app's index in [_apps] *)
  on_document_ready : list nat;
  on_window_unload : list nat
}.

Definition set_apps (l : list App) (w : World) : World :=
  mkWorld l (_isDocReady w) (_lockBarrier w) (on_document_ready w) (on_window_unload w).
Definition set_isDocReady (b : bool) (w : World) : World :=
  mkWorld (_apps w) b (_lockBarrier w) (on_document_ready w) (on_window_unload w).
Definition set_lockBarrier (z : Z) (w : World) : World :=
  mkWorld (_apps w) (_isDocReady w) z (on_document_ready w) (on_window_unload w).
Definition set_on_document_ready (l : list nat) (w : World) : World :=
  mkWorld (_apps w) (_isDocReady w) (_lockBarrier w) l (on_window_unload w).
Definition set_on_window_unload (l : list nat) (w : World) : World :=
  mkWorld (_apps w) (_isDocReady w) (_lockBarrier w) (on_document_ready w) l.

(** Run a method on the app with index [i].  A method call through a
    reference that names no app is a [TypeError]. *)
Definition on_app {A} (i : nat) (m : Prog App A) : Prog World A :=
  fun w =>
    match _apps w !! i with
    | None => (w, [], Throw)
    | Some a =>
        match m a with
        | (a', es, r) => (set_apps (<[i:=a']> (_apps w)) w, es, r)
        end
    end.

Definition _check (i : nat) : Prog World unit :=
  w ← get;
  if (0 <? _lockBarrier w)%Z then ret tt
  else
    a ← on_app i get;
    if _isIgnited a || _isDocReady w then on_app i (this_initialize i)
    else ret tt.

Definition _runChecks : Prog World unit :=
  w ← get; each _check (seq 0 (length (_apps w))).

Definition _bindAutoStart (i : nat) : Prog World unit :=
  a ← on_app i get;
  if negb (autoStart a) then ret tt
  else
    w ← get;
    if _isDocReady w then _check i
    else modify (fun w => set_on_document_ready (on_document_ready w ++ [i]) w).

Definition _bindAutoEnd (i : nat) : Prog World unit :=
  a ← on_app i get;
  if negb (autoEnd a) then ret tt
  else modify (fun w => set_on_window_unload (on_window_unload w ++ [i]) w).

(** [new App()] for a class whose prototype carries the given [autoStart]
    and [autoEnd]; the result is the new instance. *)
Definition new_App (auto_start auto_end : bool) : Prog World nat :=
  w ← get;
  let i := length (_apps w) in
  modify (fun w =>
       set_apps (_apps w ++ [mkApp ∅ [] JFalsy JFalsy false false
                                   auto_start auto_end false false]) w);;
  _bindAutoStart i;;
  _bindAutoEnd i;;
  ret i.

Definition ignite (i : nat) : Prog World nat :=
  on_app i (modify (set_isIgnited true));;
  _check i;;
  ret i.

Definition lock : Prog World unit :=
  modify (fun w => set_lockBarrier (_lockBarrier w + 1) w).

Definition unlock : Prog World unit :=
  modify (fun w => set_lockBarrier (_lockBarrier w - 1) w);;
  _runChecks.

(** Modelled from the spec: [_observable.trigger(name)] of [Storm.Events],
    which is not in the source file: the listeners run synchronously, in
    subscription order, and an exception of a listener is not caught. *)
Definition document_ready : Prog World unit :=
  modify (set_isDocReady true);;
  w ← get;
  each _check (on_document_ready w).

Definition window_beforeunload : Prog World unit :=
  w ← get;
  each (fun i => on_app i (this_unload i)) (on_window_unload w).

(** ** Runs of the whole module *)

(** What the page and the user code can do, one top-level call at a time. *)
Inductive action :=
| NewApp (auto_start auto_end : bool)
| DocumentReady
| WindowUnload
| Configure (i : nat) (key : string + Config) (value : Z)
| Setup (i : nat) (func : jsval)
| Start (i : nat) (func : jsval)
| End (i : nat) (func : jsval)
| Ignite (i : nat)
| Smother (i : nat) (opts : option SmotherOpts)
| Lock
| Unlock.

Definition discard {S A} (m : Prog S A) : Prog S unit := m;; ret tt.

Definition perform (act : action) : Prog World unit :=
  match act with
  | NewApp s e => discard (new_App s e)
  | DocumentReady => document_ready
  | WindowUnload => window_beforeunload
  | Configure i k v => discard (on_app i (configure i k v))
  | Setup i f => discard (on_app i (setup i f))
  | Start i f => discard (on_app i (start i f))
  | End i f => discard (on_app i (end_ i f))
  | Ignite i => discard (ignite i)
  | Smother i o => discard (on_app i (smother i o))
  | Lock => lock
  | Unlock => unlock
  end.

(** A run is a module state together with the effects logged so far.  An
    exception that escapes a top-level call ends that call only. *)
Definition step (st : World * list effect) (act : action) : World * list effect :=
  match perform act (fst st) with
  | (w', es, _) => (w', snd st ++ es)
  end.

Definition run_from (st : World * list effect) (acts : list action)
    : World * list effect :=
  fold_left step acts st.

(** The module state before the script is evaluated. *)
Definition W0 : World := mkWorld [] false 0 [] [].

Definition run (acts : list action) : World * list effect :=
  run_from (W0, []) acts.

(** Evaluating the script constructs the base app, [Storm.app]. *)
Definition boot : list action := [NewApp true true].

(** ** Reading the effect log *)

Definition owner (e : effect) : option nat :=
  match e with
  | Enter i _ | Trigger i _ _ | Call i _ _ _ => Some i
  | ConsoleError _ => None
  end.

Definition owned (i : nat) (e : effect) : bool :=
  match owner e with
  | Some j => Nat.eqb i j
  | None => false
  end.

(** The effects of app [i] in a log, in order. *)
Fixpoint view (i : nat) (l : list effect) : list effect :=
  match l with
  | [] => []
  | e :: rest => if owned i e then e :: view i rest else view i rest
  end.

Fixpoint count (P : effect -> bool) (l : list effect) : nat :=
  match l with
  | [] => 0
  | e :: rest => (if P e then 1 else 0) + count P rest
  end.

Definition is_enter_initialize (e : effect) : bool :=
  match e with Enter _ Initialize => true | _ => false end.
Definition is_enter_unload (e : effect) : bool :=
  match e with Enter _ Unload => true | _ => false end.
Definition is_start_call (e : effect) : bool :=
  match e with Call _ PStart _ _ => true | _ => false end.
Definition is_end_call (e : effect) : bool :=
  match e with Call _ PEnd _ _ => true | _ => false end.
Definition is_event (name : string) (e : effect) : bool :=
  match e with Trigger _ ev _ => String.eqb ev name | _ => false end.
Definition is_console_error (e : effect) : bool :=
  match e with ConsoleError _ => true | _ => false end.

(** Effects that only the initialization transition produces. *)
Definition is_initialize_effect (e : effect) : bool :=
  match e with
  | Enter _ Initialize => true
  | Call _ PSetup _ _ | Call _ PStart _ _ => true
  | Trigger _ ev _ => negb (String.eqb ev "end")
  | _ => false
  end.

(** The four lifecycle events, in their order. *)
Definition lifecycle : list string :=
  ["setup:before"; "setup:after"; "start:before"; "start:after"].

Definition initialize_runs (i : nat) (l : list effect) : nat :=
  count is_enter_initialize (view i l).
Definition unload_runs (i : nat) (l : list effect) : nat :=
  count is_enter_unload (view i l).
Definition end_calls (i : nat) (l : list effect) : nat :=
  count is_end_call (view i l).
Definition end_events (i : nat) (l : list effect) : nat :=
  count (is_event "end") (view i l).
Definition start_calls (i : nat) (l : list effect) : nat :=
  count is_start_call (view i l).

(** Field access through an index; an index that names no app reads as
    never initialized. *)
Definition has_initialized (w : World) (i : nat) : bool :=
  match _apps w !! i with
  | Some a => _hasInitialized a
  | None => false
  end.

(** The gating condition in the words of the specification: the lock
    counter is not greater than zero, and the app is ignited or the
    document is ready.  [_check] is compared with it below. *)
Definition gate (w : World) (a : App) : bool :=
  negb (0 <? _lockBarrier w)%Z && (_isIgnited a || _isDocReady w).

(** ** What a method may do to its instance *)

Definition lifecycle_name (e : effect) : option string :=
  match e with
  | Trigger _ ev _ => if existsb (String.eqb ev) lifecycle then Some ev else None
  | _ => None
  end.

Fixpoint lifecycle_names (l : list effect) : list string :=
  match l with
  | [] => []
  | e :: rest =>
      match lifecycle_name e with
      | Some ev => ev :: lifecycle_names rest
      | None => lifecycle_names rest
      end
  end.

(** The lifecycle events app [i] triggered, in order. *)
Definition lifecycle_events (i : nat) (l : list effect) : list string :=
  lifecycle_names (view i l).

(** The invariant tying an instance to its own effects [v] in the log. *)
Record app_inv (a : App) (v : list effect) : Prop := AppInv {
  inv_flag : _hasInitialized a = _initialize_ran a;
  inv_fresh : _initialize_ran a = false → v = [];
  inv_initialize : count is_enter_initialize v = Nat.b2n (_initialize_ran a);
  inv_unload : count is_enter_unload v ≤ Nat.b2n (_unload_ran a);
  inv_end_call : count is_end_call v ≤ count is_enter_unload v;
  inv_end_event : count (is_event "end") v ≤ count is_enter_unload v;
  inv_start_call : count is_start_call v ≤ 1;
  inv_lifecycle : lifecycle_names v `prefix_of` lifecycle
}.

(** What one method call on instance [i] with effects [es] guarantees. *)
Record app_step (i : nat) (a : App) (es : list effect) (a' : App) : Prop := AppStep {
  step_autoStart : autoStart a' = autoStart a;
  step_autoEnd : autoEnd a' = autoEnd a;
  step_hasInitialized : _hasInitialized a = true → _hasInitialized a' = true;
  step_initialize_ran : _initialize_ran a = true → _initialize_ran a' = true;
  step_unload_ran : _unload_ran a = true → _unload_ran a' = true;
  step_isIgnited : _isIgnited a = true → _isIgnited a' = true;
  step_owner : ∀ j, j ≠ i → view j es = [];
  step_inv : ∀ v, app_inv a v → app_inv a' (v ++ view i es);
  step_after : _initialize_ran a = true → count is_initialize_effect (view i es) = 0;
  step_spent : _unload_ran a = true → count is_enter_unload (view i es) = 0
}.

Definition app_safe {A} (i : nat) (m : Prog App A) : Prop :=
  ∀ a a' es r, m a = (a', es, r) → app_step i a es a'.

(** The instance as [_initialize] has it when the first event goes out. *)
Definition initializing (a : App) : App :=
  set_hasInitialized true
    (set_startCall (if truthy (startCall a) then startCall a else JFun noop) a).

(** The log entries of the setup loop of app [i]. *)
Definition setup_call_of (i : nat) (e : effect) : Prop := ∃ name x, e = Call i PSetup name x.


(** The log of one execution of [_initialize], whichever way it ends. *)
Inductive initialize_log (i : nat) : list effect → Prop :=
| IL_setup_raised p0 es1 :
    Forall (setup_call_of i) es1 →
    initialize_log i (Enter i Initialize :: Trigger i "setup:before" p0 :: es1)
| IL_start_raised p0 es1 p1 p2 es3 :
    Forall (setup_call_of i) es1 →
    (es3 = [] ∨ ∃ name x, es3 = [Call i PStart name x]) →
    initialize_log i
      (Enter i Initialize :: Trigger i "setup:before" p0 :: es1 ++
         Trigger i "setup:after" p1 :: Trigger i "start:before" p2 :: es3)
| IL_completed p0 es1 p1 p2 es3 p3 :
    Forall (setup_call_of i) es1 →
    (es3 = [] ∨ ∃ name x, es3 = [Call i PStart name x]) →
    initialize_log i
      (Enter i Initialize :: Trigger i "setup:before" p0 :: es1 ++
         Trigger i "setup:after" p1 :: Trigger i "start:before" p2 :: es3 ++
         [Trigger i "start:after" p3]).

(** ** What a module-level call may do to the module state *)

(** The flags of an instance only move forward, and its class never
    changes. *)
Record app_mono (a a' : App) : Prop := AppMono {
  mono_autoStart : autoStart a' = autoStart a;
  mono_autoEnd : autoEnd a' = autoEnd a;
  mono_hasInitialized : _hasInitialized a = true → _hasInitialized a' = true;
  mono_initialize_ran : _initialize_ran a = true → _initialize_ran a' = true;
  mono_unload_ran : _unload_ran a = true → _unload_ran a' = true;
  mono_isIgnited : _isIgnited a = true → _isIgnited a' = true
}.

(** The invariant of a run: every app agrees with its part of the log, an
    index that names no app has logged nothing, and only apps with
    [autoStart] listen to ['document:ready']. *)
Record Inv (w : World) (l : list effect) : Prop := MkInv {
  inv_apps : ∀ i a, _apps w !! i = Some a → app_inv a (view i l);
  inv_none : ∀ i, _apps w !! i = None → view i l = [];
  inv_listeners : ∀ i, i ∈ on_document_ready w →
    ∃ a, _apps w !! i = Some a ∧ autoStart a = true
}.

Record world_step (w : World) (es : list effect) (w' : World) : Prop := WorldStep {
  ws_apps : ∀ i a, _apps w !! i = Some a →
    ∃ a', _apps w' !! i = Some a' ∧ app_mono a a';
  ws_inv : ∀ l, Inv w l → Inv w' (l ++ es);
  ws_after : ∀ i a, _apps w !! i = Some a → _initialize_ran a = true →
    count is_initialize_effect (view i es) = 0;
  ws_isDocReady : _isDocReady w = true → _isDocReady w' = true;
  ws_spent : ∀ i a, _apps w !! i = Some a → _unload_ran a = true →
    count is_enter_unload (view i es) = 0
}.

Definition world_safe {A} (m : Prog World A) : Prop :=
  ∀ w w' es r, m w = (w', es, r) → world_step w es w'.

(** A relation between the module state before and after, kept by every
    program in a class. *)
Definition preserves (R : World → World → Prop) {A} (m : Prog World A) : Prop :=
  ∀ w w' es r, m w = (w', es, r) → R w w'.

(** Relations that every method call through [on_app] keeps. *)
Class StateRel (R : World → World → Prop) : Prop := {
  rel_refl : ∀ w, R w w;
  rel_trans : ∀ w1 w2 w3, R w1 w2 → R w2 w3 → R w1 w3;
  rel_apps : ∀ w l, R w (set_apps l w)
}.

(** Nothing but [_apps] changed. *)
Definition apps_only (w w' : World) : Prop := w' = set_apps (_apps w') w.

Definition same_lock (w w' : World) : Prop := _lockBarrier w' = _lockBarrier w.

(** Number of [Lock] minus number of [Unlock] calls in a run. *)
Fixpoint lock_balance (acts : list action) : Z :=
  match acts with
  | [] => 0
  | Lock :: rest => 1 + lock_balance rest
  | Unlock :: rest => -1 + lock_balance rest
  | _ :: rest => lock_balance rest
  end.

(** ** The initialization transition, spelled out *)

Definition returns_normally (f : callback) : Prop :=
  ∀ c, snd (cb_run f c) = Returns.

(** [config] after the functions [fs] ran on it one after the other. *)
Definition after_setup (fs : list callback) (c : Config) : Config :=
  fold_left (λ c f, fst (cb_run f c)) fs c.

(** The invocations of the setup loop over the functions [fs]. *)
Fixpoint setup_log (i : nat) (fs : list callback) (c : Config) : list effect :=
  match fs with
  | [] => []
  | f :: rest =>
      Call i PSetup (cb_name f) [AConfig c] :: setup_log i rest (fst (cb_run f c))
  end.

(** The function [_callStart] runs for a registered value that is
    callable or falsy. *)
Definition start_fn (v : jsval) : callback :=
  match v with JFun g | JCallable g => g | _ => noop end.

(** ** Sample callbacks *)

Definition sample_setup1 : callback :=
  Callback "s1" (λ c, (<["a":=1%Z]> c, Returns)).
Definition sample_setup2 : callback :=
  Callback "s2" (λ c, (<["b":=2%Z]> c, Returns)).
Definition sample_start : callback :=
  Callback "f" (λ c, (<["started":=1%Z]> c, Returns)).
Definition sample_end : callback :=
  Callback "bye" (λ c, (c, Returns)).
Definition sample_failing : callback :=
  Callback "boom" (λ c, (<["half":=1%Z]> c, Raises)).

(** ** The unload transition, spelled out *)

Definition silent : option SmotherOpts := Some {| isSilent := true |}.

(** What the first entry into the one-shot [_unload] of an initialized
    instance does. *)
Definition first_unload (i : nat) (a : App) : App * list effect * result unit :=
  match endCall a with
  | JFun cb | JCallable cb =>
      (set_config (fst (cb_run cb (config a))) (set_unload_ran true a),
       Enter i Unload :: Call i PEnd (cb_name cb) [AApp i; AConfig (config a)] ::
         match snd (cb_run cb (config a)) with
         | Returns => [Trigger i "end" None]
         | Raises => []
         end,
       match snd (cb_run cb (config a)) with
       | Returns => Ok tt
       | Raises => Throw
       end)
  | JFalsy => (set_unload_ran true a, [Enter i Unload; Trigger i "end" None], Ok tt)
  | JTruthy => (set_unload_ran true a, [Enter i Unload], Throw)
  end.

(** ** Further readings of runs and states *)

Definition is_setup_call (e : effect) : bool :=
  match e with Call _ PSetup _ _ => true | _ => false end.

Definition setup_calls (i : nat) (l : list effect) : nat :=
  count is_setup_call (view i l).

(** Number of constructor calls in a run. *)
Fixpoint constructions (acts : list action) : nat :=
  match acts with
  | [] => 0
  | NewApp _ _ :: rest => S (constructions rest)
  | _ :: rest => constructions rest
  end.

(** The app a call is made on, for the calls that are methods. *)
Definition target (act : action) : option nat :=
  match act with
  | Configure i _ _ | Setup i _ | Start i _ | End i _ | Ignite i | Smother i _ => Some i
  | _ => None
  end.

Definition same_length (w w' : World) : Prop :=
  length (_apps w') = length (_apps w).

Definition same_listeners (w w' : World) : Prop :=
  on_document_ready w' = on_document_ready w ∧
  on_window_unload w' = on_window_unload w.

(** The instance as the constructor leaves it when it performs no
    initialization, and when it does. *)
Definition fresh_app (auto_start auto_end : bool) : App :=
  mkApp ∅ [] JFalsy JFalsy false false auto_start auto_end false false.

Definition started_app (auto_start auto_end : bool) : App :=
  mkApp ∅ [] JFalsy JFalsy true false auto_start auto_end true false.

(** The log of an initialization with nothing registered. *)
Definition bare_start_log (i : nat) : list effect :=
  [Enter i Initialize;
   Trigger i "setup:before" (Some ∅);
   Trigger i "setup:after" (Some ∅);
   Trigger i "start:before" (Some ∅);
   Call i PStart "" [AConfig ∅];
   Trigger i "start:after" (Some ∅)].

(** Whether the constructor initializes the new app on the spot. *)
Definition starts_at_construction (auto_start : bool) (w : World) : bool :=
  auto_start && _isDocReady w && negb (0 <? _lockBarrier w)%Z.

(** Who listens to the two events of [_observable]: exactly the apps with
    [autoEnd] listen to ['window:unload'], and while the document is not
    ready every app with [autoStart] listens to ['document:ready']. *)
Record Subscribed (w : World) : Prop := MkSubscribed {
  sub_unload_sound : ∀ i, i ∈ on_window_unload w →
    ∃ a, _apps w !! i = Some a ∧ autoEnd a = true;
  sub_unload_complete : ∀ i a, _apps w !! i = Some a → autoEnd a = true →
    i ∈ on_window_unload w;
  sub_ready_complete : _isDocReady w = false →
    ∀ i a, _apps w !! i = Some a → autoStart a = true → i ∈ on_document_ready w
}.

(** * Proofs *)

Section Logs.

Lemma lifecycle_names_app l1 l2 :
  lifecycle_names (l1 ++ l2) = lifecycle_names l1 ++ lifecycle_names l2.
Proof.
  induction l1 as [|e l1 IH]; simpl; [done|].
  destruct (lifecycle_name e); simpl; by rewrite IH.
Qed.


Lemma view_app i l1 l2 : view i (l1 ++ l2) = view i l1 ++ view i l2.
Proof.
  induction l1 as [|e l1 IH]; simpl; [done|].
  destruct (owned i e); simpl; by rewrite IH.
Qed.

Lemma count_app P l1 l2 : count P (l1 ++ l2) = count P l1 + count P l2.
Proof. induction l1 as [|e l1 IH]; simpl; [done|]. rewrite IH. lia. Qed.

Lemma count_zero P l : (∀ e, e ∈ l → P e = false) → count P l = 0.
Proof.
  induction l as [|e l IH]; simpl; intros H; [done|].
  rewrite (H e) by constructor. rewrite IH; [done|].
  intros e' He'. apply H. by constructor.
Qed.

End Logs.

Section Methods.

Lemma set_config_id a : set_config (config a) a = a.
Proof. by destruct a. Qed.

(** A registered value that is called changes only [config] and logs at
    most its own invocation. *)
Lemma call_summary i p args f a :
  ∃ c es r, call i p args f a = (set_config c a, es, r) ∧
    (es = [] ∨ ∃ name, es = [Call i p name (args (config a))]).
Proof.
  destruct f as [cb| | |cb]; simpl;
    try (exists (config a), [], Throw; rewrite set_config_id;
         split; [done|by left]);
    unfold bind, get, emit, modify; simpl;
    destruct (cb_run cb (config a)) as [c o] eqn:E; simpl;
    exists c, [Call i p (cb_name cb) (args (config a))];
    destruct o; simpl; eexists; (split; [reflexivity|]); right; by eexists.
Qed.

Lemma each_call_summary i args fs a :
  ∃ c es r, each (call i PSetup args) fs a = (set_config c a, es, r) ∧
    Forall (λ e, ∃ name x, e = Call i PSetup name x) es.
Proof.
  revert a. induction fs as [|f fs IH]; intros a; simpl.
  - exists (config a), [], (Ok tt). rewrite set_config_id. by split.
  - unfold bind at 1.
    destruct (call_summary i PSetup args f a) as (c & es & r & -> & Hes).
    assert (Forall (λ e, ∃ name x, e = Call i PSetup name x) es) as Hes'.
    { destruct Hes as [->|[name ->]]; [constructor|].
      constructor; [by do 2 eexists|constructor]. }
    destruct r as [[]|].
    + destruct (IH (set_config c a)) as (c' & es' & r' & -> & Hes'').
      exists c', (es ++ es'), r'. split; [done|]. by apply Forall_app.
    + exists c, es, Throw. by split.
Qed.

Lemma view_own i es :
  Forall (λ e, owner e = Some i) es → view i es = es.
Proof.
  induction 1 as [|e es He _ IH]; simpl; [done|].
  unfold owned. rewrite He, Nat.eqb_refl. by rewrite IH.
Qed.

Lemma view_foreign i j es :
  j ≠ i → Forall (λ e, owner e = Some i ∨ owner e = None) es → view j es = [].
Proof.
  intros Hij. induction 1 as [|e es He _ IH]; simpl; [done|].
  unfold owned. destruct He as [-> | ->]; [|done].
  destruct (Nat.eqb j i) eqn:E; [apply Nat.eqb_eq in E; congruence|done].
Qed.

End Methods.

Section Initialize.

Variable i : nat.

(** [_initialize] step by step, split at the two places where user code
    runs. *)
Lemma _initialize_unfold a :
  _initialize i a =
    match each (call i PSetup (λ c, [AConfig c])) (setupCalls a) (initializing a) with
    | (a1, es1, Throw) =>
        (a1, Enter i Initialize :: Trigger i "setup:before" (Some (config a)) :: es1,
         Throw)
    | (a1, es1, Ok _) =>
        match call i PStart (λ c, [AConfig c]) (startCall a1) (set_setupCalls [] a1) with
        | (a3, es3, Throw) =>
            (a3,
             Enter i Initialize :: Trigger i "setup:before" (Some (config a)) :: es1 ++
               Trigger i "setup:after" (Some (config a1)) ::
               Trigger i "start:before" (Some (config a1)) :: es3,
             Throw)
        | (a3, es3, Ok _) =>
            (set_startCall JFalsy a3,
             Enter i Initialize :: Trigger i "setup:before" (Some (config a)) :: es1 ++
               Trigger i "setup:after" (Some (config a1)) ::
               Trigger i "start:before" (Some (config a1)) :: es3 ++
               [Trigger i "start:after" (Some (config a3))],
             Ok tt)
        end
    end.
Proof.
  unfold _initialize, _callSetup, _callStart, trigger, initializing.
  unfold bind, emit, modify, get; simpl.
  destruct (each _ _ _) as [[a1 es1] [[]|]]; simpl; [|done].
  destruct (call _ _ _ _ _) as [[a3 es3] [[]|]]; simpl;
    by rewrite !app_nil_r.
Qed.

End Initialize.

Section MethodSafety.

Variable i : nat.

Lemma setup_calls_count P es :
  Forall (setup_call_of i) es → (∀ name x, P (Call i PSetup name x) = false) →
  count P es = 0.
Proof.
  intros Hes HP. apply count_zero. intros e He.
  rewrite Forall_forall in Hes. destruct (Hes e He) as (name & x & ->). apply HP.
Qed.

Lemma setup_calls_lifecycle es :
  Forall (setup_call_of i) es → lifecycle_names es = [].
Proof.
  induction 1 as [|e es (name & x & ->) _ IH]; simpl; [done|]. exact IH.
Qed.

Lemma setup_calls_owner es :
  Forall (setup_call_of i) es → Forall (λ e, owner e = Some i) es.
Proof.
  intros H. eapply Forall_impl; [exact H|]. by intros e (name & x & ->).
Qed.

(** A call that leaves the one-shot flags alone and logs nothing of any
    app is safe. *)
Lemma app_step_quiet a es a' :
  autoStart a' = autoStart a → autoEnd a' = autoEnd a →
  _hasInitialized a' = _hasInitialized a →
  _initialize_ran a' = _initialize_ran a →
  (_unload_ran a = true → _unload_ran a' = true) →
  (_isIgnited a = true → _isIgnited a' = true) →
  (∀ j, view j es = []) →
  app_step i a es a'.
Proof.
  intros HS HE HI HR HU HG Hes.
  constructor; [congruence|congruence|congruence|congruence|done|done| | | |].
  - intros j _. apply Hes.
  - intros v [? ? ? ? ? ? ? ?]. rewrite Hes, app_nil_r.
    constructor; try congruence; try done.
    + rewrite HR. done.
    + destruct (_unload_ran a) eqn:E; [by rewrite HU|].
      simpl in *. lia.
  - intros _. by rewrite Hes.
  - intros _. by rewrite Hes.
Qed.

Lemma app_step_refl a : app_step i a [] a.
Proof. by apply app_step_quiet. Qed.

Ltac log_facts Hs :=
  repeat (rewrite ?count_app, ?lifecycle_names_app; simpl);
  rewrite ?(setup_calls_count _ _ Hs), ?(setup_calls_lifecycle _ Hs) by done;
  simpl.

Lemma initialize_log_facts es :
  initialize_log i es →
  Forall (λ e, owner e = Some i) es ∧
  count is_enter_initialize es = 1 ∧
  count is_enter_unload es = 0 ∧
  count is_end_call es = 0 ∧
  count (is_event "end") es = 0 ∧
  count is_start_call es ≤ 1 ∧
  lifecycle_names es `prefix_of` lifecycle.
Proof.
  intros H. split.
  { destruct H as [p0 es1 Hs|p0 es1 p1 p2 es3 Hs H3|p0 es1 p1 p2 es3 p3 Hs H3];
      apply setup_calls_owner in Hs;
      try (assert (Forall (λ e, owner e = Some i) es3)
             by (destruct H3 as [->|(name & x & ->)]; repeat constructor));
      repeat first [ apply Forall_cons; split; [done|]
                   | apply Forall_app; split
                   | done
                   | apply Forall_nil ]. }
  destruct H as [p0 es1 Hs|p0 es1 p1 p2 es3 Hs H3|p0 es1 p1 p2 es3 p3 Hs H3].
  - log_facts Hs. repeat split; try lia. by exists (tail lifecycle).
  - destruct H3 as [->|(name & x & ->)]; log_facts Hs;
      (repeat split; try lia); by exists ["start:after"].
  - destruct H3 as [->|(name & x & ->)]; log_facts Hs;
      (repeat split; try lia); by exists [].
Qed.

Lemma _initialize_log a a' es r :
  _initialize i a = (a', es, r) →
  initialize_log i es ∧ ∃ c sc st, a' = set_config c (set_setupCalls sc
    (set_startCall st (set_hasInitialized true a))).
Proof.
  rewrite _initialize_unfold.
  destruct (each_call_summary i (λ c, [AConfig c]) (setupCalls a) (initializing a))
    as (c1 & es1 & r1 & -> & Hs).
  destruct r1 as [[]|].
  2: { intros [= <- <- <-]. split; [by constructor|].
       by exists c1, (setupCalls a),
         (if truthy (startCall a) then startCall a else JFun noop). }
  match goal with |- context [call i PStart ?f ?v ?x] =>
    destruct (call_summary i PStart f v x) as (c3 & es3 & r3 & -> & H3) end.
  assert (es3 = [] ∨ ∃ name x, es3 = [Call i PStart name x]) as H3'.
  { destruct H3 as [->|[name ->]]; [by left|right; by do 2 eexists]. }
  destruct r3 as [[]|]; intros [= <- <- <-]; (split; [by constructor|]).
  - by exists c3, [], JFalsy.
  - by exists c3, [], (if truthy (startCall a) then startCall a else JFun noop).
Qed.

Lemma this_initialize_safe : app_safe i (this_initialize i).
Proof.
  intros a a' es r. unfold this_initialize, once, bind, get, modify; simpl.
  destruct (_initialize_ran a) eqn:Hran.
  { intros [= <- <- <-]. apply app_step_refl. }
  destruct (_initialize i (set_initialize_ran true a)) as [[a1 es1] r1] eqn:E.
  intros [= <- <- <-]. simpl.
  apply _initialize_log in E as [Hlog (c & sc & st & ->)].
  apply initialize_log_facts in Hlog as (Hown & H1 & H2 & H3 & H4 & H5 & H6).
  constructor; simpl; try done.
  - intros j Hj. eapply view_foreign; [done|].
    eapply Forall_impl; [exact Hown|]. by left.
  - intros v Hv. rewrite (inv_fresh _ _ Hv Hran), (view_own _ _ Hown). simpl.
    constructor; simpl; try done; lia.
  - congruence.
  - intros _. by rewrite (view_own _ _ Hown).
Qed.

Lemma this_unload_safe : app_safe i (this_unload i).
Proof.
  intros a a' es r. unfold this_unload, once, bind, get, modify; simpl.
  destruct (_unload_ran a) eqn:Hran.
  { intros [= <- <- <-]. apply app_step_refl. }
  unfold _unload, bind, get, emit, trigger_plain; simpl.
  destruct (_hasInitialized a) eqn:Hinit; simpl.
  2: { intros [= <- <- <-]. by apply app_step_quiet. }
  assert (∃ c es1 r1,
    (if truthy (endCall a)
     then call i PEnd (λ c, [AApp i; AConfig c]) (endCall a)
     else ret tt) (set_unload_ran true a) = (set_config c (set_unload_ran true a), es1, r1)
    ∧ (es1 = [] ∨ ∃ name x, es1 = [Call i PEnd name x])) as (c & es1 & r1 & -> & H1).
  { destruct (truthy (endCall a)).
    - destruct (call_summary i PEnd (λ c, [AApp i; AConfig c]) (endCall a)
        (set_unload_ran true a)) as (c & es1 & r1 & -> & H1).
      exists c, es1, r1. split; [done|].
      destruct H1 as [->|[name ->]]; [by left|right; by do 2 eexists].
    - exists (config a), [], (Ok tt). split; [by destruct a|by left]. }
  assert (Forall (λ e, owner e = Some i) es1) as Hown1.
  { destruct H1 as [->|(name & x & ->)]; repeat constructor. }
  assert (count is_enter_unload es1 = 0 ∧ count is_enter_initialize es1 = 0 ∧
          count (is_event "end") es1 = 0 ∧ count is_start_call es1 = 0 ∧
          count is_end_call es1 ≤ 1 ∧ lifecycle_names es1 = [] ∧
          count is_initialize_effect es1 = 0) as (C1 & C2 & C3 & C4 & C5 & C6 & C7).
  { destruct H1 as [->|(name & x & ->)]; simpl; repeat split; lia. }
  assert (∀ tl, Forall (λ e, owner e = Some i) tl →
     count is_enter_unload tl = 0 → count is_enter_initialize tl = 0 →
     count (is_event "end") tl ≤ 1 → count is_start_call tl = 0 →
     count is_end_call tl ≤ 1 → lifecycle_names tl = [] →
     count is_initialize_effect tl = 0 →
     app_step i a (Enter i Unload :: tl) (set_config c (set_unload_ran true a)))
    as Hstep.
  { intros tl Hown T1 T2 T3 T4 T5 T6 T7.
    assert (Forall (λ e, owner e = Some i) (Enter i Unload :: tl)) as Hown'
      by (by constructor).
    constructor; [done|done|done|done|done|done| | | |].
    - intros j Hj. eapply view_foreign; [done|].
      eapply Forall_impl; [exact Hown'|]. by left.
    - intros v [F1 F2 F3 F4 F5 F6 F7 F8]. rewrite (view_own _ _ Hown').
      rewrite Hran in F4. simpl in F4.
      constructor; simpl; rewrite ?count_app, ?lifecycle_names_app; simpl;
        rewrite ?T6, ?app_nil_r; try done; try lia.
      intros Hr. congruence.
    - intros _. rewrite (view_own _ _ Hown'). simpl. done.
    - congruence. }
  destruct r1 as [[]|]; intros [= <- <- <-].
  - apply Hstep; rewrite ?count_app, ?lifecycle_names_app; simpl;
      rewrite ?C6; try lia; try done.
    apply Forall_app; split; [done|repeat constructor].
  - apply Hstep; try done; lia.
Qed.

Lemma smother_safe opts : app_safe i (smother i opts).
Proof.
  intros a a' es r. unfold smother, bind, get; simpl.
  destruct (_hasInitialized a); simpl.
  2: { intros [= <- <- <-]. apply app_step_refl. }
  destruct (isSilent (default {| isSilent := false |} opts)); simpl.
  { intros [= <- <- <-]. apply app_step_refl. }
  destruct (this_unload i a) as [[a1 es1] r1] eqn:E.
  apply this_unload_safe in E.
  destruct r1 as [[]|]; intros [= <- <- <-]; by rewrite ?app_nil_r.
Qed.

Lemma configure_safe key value : app_safe i (configure i key value).
Proof.
  intros a a' es r. destruct key; unfold configure, bind, modify, ret; simpl;
    intros [= <- <- <-]; by apply app_step_quiet.
Qed.

Lemma setup_safe func : app_safe i (setup i func).
Proof.
  intros a a' es r. unfold setup, bind, modify, ret, emit.
  destruct (isFunction func); simpl; intros [= <- <- <-]; by apply app_step_quiet.
Qed.

Lemma start_safe func : app_safe i (start i func).
Proof.
  intros a a' es r. unfold start, bind, modify, ret, emit.
  destruct (isFunction func); simpl; intros [= <- <- <-]; by apply app_step_quiet.
Qed.

Lemma end_safe func : app_safe i (end_ i func).
Proof.
  intros a a' es r. unfold end_, bind, modify, ret, emit.
  destruct (isFunction func); simpl; intros [= <- <- <-]; by apply app_step_quiet.
Qed.

Lemma get_safe : app_safe i get.
Proof. intros a a' es r [= <- <- <-]. apply app_step_refl. Qed.

Lemma set_isIgnited_safe : app_safe i (modify (set_isIgnited true)).
Proof. intros a a' es r [= <- <- <-]. by apply app_step_quiet. Qed.

End MethodSafety.

Section WorldSafety.

Lemma app_mono_refl a : app_mono a a.
Proof. by constructor. Qed.

Lemma app_mono_trans a b c : app_mono a b → app_mono b c → app_mono a c.
Proof. intros [] []. constructor; try congruence; auto. Qed.

Lemma app_step_mono i a es a' : app_step i a es a' → app_mono a a'.
Proof. intros []. by constructor. Qed.

Lemma world_step_refl w : world_step w [] w.
Proof.
  constructor; try done.
  - intros i a Ha. exists a. split; [done|apply app_mono_refl].
  - intros l Hl. by rewrite app_nil_r.
Qed.

Lemma world_step_trans w1 es1 w2 es2 w3 :
  world_step w1 es1 w2 → world_step w2 es2 w3 → world_step w1 (es1 ++ es2) w3.
Proof.
  intros [A1 I1 F1 D1 S1] [A2 I2 F2 D2 S2]. constructor.
  - intros i a Ha. destruct (A1 i a Ha) as (b & Hb & Hab).
    destruct (A2 i b Hb) as (c & Hc & Hbc). exists c. split; [done|].
    by eapply app_mono_trans.
  - intros l Hl. rewrite app_assoc. auto.
  - intros i a Ha Hran. destruct (A1 i a Ha) as (b & Hb & Hab).
    rewrite view_app, count_app, (F1 i a Ha Hran).
    rewrite (F2 i b Hb); [done|]. by apply (mono_initialize_ran _ _ Hab).
  - auto.
  - intros i a Ha Hran. destruct (A1 i a Ha) as (b & Hb & Hab).
    rewrite view_app, count_app, (S1 i a Ha Hran).
    rewrite (S2 i b Hb); [done|]. by apply (mono_unload_ran _ _ Hab).
Qed.

Lemma wsafe_ret {A} (x : A) : world_safe (ret x).
Proof. intros w w' es r [= <- <- <-]. apply world_step_refl. Qed.

Lemma wsafe_throw {A} : world_safe (@throw World A).
Proof. intros w w' es r [= <- <- <-]. apply world_step_refl. Qed.

Lemma wsafe_get : world_safe (@get World).
Proof. intros w w' es r [= <- <- <-]. apply world_step_refl. Qed.

Lemma wsafe_bind {A B} (m : Prog World A) (k : A → Prog World B) :
  world_safe m → (∀ x, world_safe (k x)) → world_safe (bind m k).
Proof.
  intros Hm Hk w w' es r. unfold bind.
  destruct (m w) as [[w1 es1] [x|]] eqn:E1.
  - destruct (k x w1) as [[w2 es2] r2] eqn:E2. intros [= <- <- <-].
    eapply world_step_trans; [by eapply Hm|by eapply Hk].
  - intros [= <- <- <-]. by eapply Hm.
Qed.

Lemma wsafe_each {X} (f : X → Prog World unit) xs :
  (∀ x, world_safe (f x)) → world_safe (each f xs).
Proof.
  intros Hf. induction xs as [|x xs IH]; simpl.
  - apply wsafe_ret.
  - apply wsafe_bind; [apply Hf|by intros _].
Qed.

Lemma wsafe_on_app {A} i (m : Prog App A) :
  app_safe i m → world_safe (on_app i m).
Proof.
  intros Hm w w' es r. unfold on_app.
  destruct (_apps w !! i) as [a|] eqn:Hi.
  2: { intros [= <- <- <-]. apply world_step_refl. }
  destruct (m a) as [[a' es'] r'] eqn:E. intros [= <- <- <-].
  apply Hm in E. pose proof (lookup_lt_Some _ _ _ Hi) as Hlt.
  constructor; simpl; [| |intros j b Hj Hran|done|intros j b Hj Hran].
  - intros j b Hj. destruct (decide (j = i)) as [->|Hne].
    + exists a'. rewrite list_lookup_insert_eq by done.
      split; [done|]. rewrite Hi in Hj. injection Hj as <-.
      by eapply app_step_mono.
    + exists b. rewrite list_lookup_insert_ne by done.
      split; [done|apply app_mono_refl].
  - intros l [I1 I2 I3]. constructor; simpl.
    + intros j b. rewrite view_app. destruct (decide (j = i)) as [->|Hne].
      * rewrite list_lookup_insert_eq by done. intros [= <-].
        apply (step_inv _ _ _ _ E). by apply I1.
      * rewrite list_lookup_insert_ne by done. intros Hj.
        rewrite (step_owner _ _ _ _ E j Hne), app_nil_r. by apply I1.
    + intros j. rewrite view_app. destruct (decide (j = i)) as [->|Hne].
      * rewrite list_lookup_insert_eq by done. done.
      * rewrite list_lookup_insert_ne by done. intros Hj.
        rewrite (step_owner _ _ _ _ E j Hne), app_nil_r. by apply I2.
    + intros j Hj. destruct (I3 j Hj) as (b & Hb & Hauto).
      destruct (decide (j = i)) as [->|Hne].
      * exists a'. rewrite list_lookup_insert_eq by done. split; [done|].
        rewrite Hi in Hb. injection Hb as <-.
        by rewrite (step_autoStart _ _ _ _ E).
      * exists b. by rewrite list_lookup_insert_ne by done.
  - destruct (decide (j = i)) as [->|Hne].
    + rewrite Hi in Hj. injection Hj as <-. by apply (step_after _ _ _ _ E).
    + by rewrite (step_owner _ _ _ _ E j Hne).
  - destruct (decide (j = i)) as [->|Hne].
    + rewrite Hi in Hj. injection Hj as <-. by apply (step_spent _ _ _ _ E).
    + by rewrite (step_owner _ _ _ _ E j Hne).
Qed.

(** Writes to the counter, the ready flag and the unload listeners. *)
Lemma wsafe_modify_globals (f : World → World) :
  (∀ w, _apps (f w) = _apps w) →
  (∀ w, on_document_ready (f w) = on_document_ready w) →
  (∀ w, _isDocReady w = true → _isDocReady (f w) = true) →
  world_safe (modify f).
Proof.
  intros Ha Hl Hd w w' es r [= <- <- <-].
  constructor; [| |done|auto|done].
  - intros i a Hi. exists a. rewrite Ha. split; [done|apply app_mono_refl].
  - intros l [I1 I2 I3]. rewrite app_nil_r.
    constructor; rewrite ?Ha, ?Hl; done.
Qed.

Ltac wsafe :=
  repeat first
    [ apply wsafe_ret | apply wsafe_throw | apply wsafe_get
    | apply wsafe_bind; [|intros ?]
    | apply wsafe_each; intros ?
    | apply wsafe_on_app
    | apply this_initialize_safe | apply this_unload_safe | apply get_safe
    | apply set_isIgnited_safe | apply smother_safe | apply configure_safe
    | apply setup_safe | apply start_safe | apply end_safe
    | apply wsafe_modify_globals; done
    | match goal with |- world_safe (if ?b then _ else _) => destruct b end ].

Lemma _check_safe i : world_safe (_check i).
Proof. unfold _check. wsafe. Qed.

Lemma _runChecks_safe : world_safe _runChecks.
Proof. unfold _runChecks. wsafe. Qed.

Lemma lock_safe : world_safe lock.
Proof. unfold lock. wsafe. Qed.

Lemma unlock_safe : world_safe unlock.
Proof. unfold unlock. wsafe. Qed.

Lemma ignite_safe i : world_safe (ignite i).
Proof. unfold ignite. wsafe. Qed.

Lemma document_ready_safe : world_safe document_ready.
Proof. unfold document_ready. wsafe. Qed.

Lemma window_beforeunload_safe : world_safe window_beforeunload.
Proof. unfold window_beforeunload. wsafe. Qed.

Lemma _bindAutoEnd_safe i : world_safe (_bindAutoEnd i).
Proof. unfold _bindAutoEnd. wsafe. Qed.

(** Subscribing to ['document:ready'] is done for apps with [autoStart]
    only. *)
Lemma _bindAutoStart_safe i : world_safe (_bindAutoStart i).
Proof.
  intros w w' es r. unfold _bindAutoStart, bind, on_app at 1, get; simpl.
  destruct (_apps w !! i) as [a|] eqn:Hi; simpl.
  2: { intros [= <- <- <-]. apply world_step_refl. }
  rewrite list_insert_id by done.
  replace (set_apps (_apps w) w) with w by (by destruct w).
  destruct (autoStart a) eqn:Hauto; simpl.
  2: { intros [= <- <- <-]. apply world_step_refl. }
  destruct (_isDocReady w) eqn:Hready.
  - destruct (_check i w) as [[w1 es1] r1] eqn:E. intros [= <- <- <-]. simpl.
    by apply _check_safe in E.
  - unfold modify. intros [= <- <- <-]. simpl.
    constructor; simpl; [| |done|done|done].
    + intros j b Hj. exists b. split; [done|apply app_mono_refl].
    + intros l [I1 I2 I3]. rewrite app_nil_r. constructor; simpl; [done|done|].
      intros j [Hj| ->%list_elem_of_singleton]%elem_of_app; [by apply I3|].
      by exists a.
Qed.

Lemma new_App_safe s e : world_safe (new_App s e).
Proof.
  unfold new_App. apply wsafe_bind; [apply wsafe_get|intros w0].
  apply wsafe_bind;
    [|intros _; apply wsafe_bind; [apply _bindAutoStart_safe|intros _; wsafe]].
  intros w w' es r [= <- <- <-].
  set (fresh := mkApp ∅ [] JFalsy JFalsy false false s e false false).
  constructor; simpl; [| |done|done|done].
  - intros i a Hi. exists a. split; [|apply app_mono_refl].
    by apply lookup_app_l_Some.
  - intros l [I1 I2 I3]. rewrite app_nil_r. constructor; simpl.
    + intros i a Hi. apply lookup_app_Some in Hi as [Hi|[Hge Hi]]; [by apply I1|].
      destruct (i - length (_apps w)) as [|k] eqn:Hk; [|done].
      simpl in Hi. injection Hi as <-.
      rewrite (I2 i) by (apply lookup_ge_None; lia).
      constructor; simpl; try done; try lia. by exists lifecycle.
    + intros i Hi. apply I2. apply lookup_ge_None.
      apply lookup_ge_None in Hi. rewrite length_app in Hi. simpl in Hi. lia.
    + intros i Hi. destruct (I3 i Hi) as (a & Ha & Hauto).
      exists a. split; [by apply lookup_app_l_Some|done].
Qed.

Lemma perform_safe act : world_safe (perform act).
Proof.
  destruct act; simpl; unfold discard;
    try (apply wsafe_bind; [apply new_App_safe|intros ?]); wsafe.
Qed.

(** A run extends the log and moves the module state forward. *)
Lemma run_from_step acts : ∀ w l,
  ∃ es, snd (run_from (w, l) acts) = l ++ es ∧
        world_step w es (fst (run_from (w, l) acts)).
Proof.
  induction acts as [|act acts IH]; intros w l; simpl.
  - exists []. rewrite app_nil_r. split; [done|apply world_step_refl].
  - change (fold_left step acts (step (w, l) act))
      with (run_from (step (w, l) act) acts).
    unfold step; simpl.
    destruct (perform act w) as [[w1 es1] r1] eqn:E.
    apply perform_safe in E.
    destruct (IH w1 (l ++ es1)) as (es2 & Hl & Hs).
    exists (es1 ++ es2). rewrite Hl, app_assoc. split; [done|].
    by eapply world_step_trans.
Qed.

Lemma Inv_W0 : Inv W0 [].
Proof.
  constructor; simpl; try done.
  intros i Hi. by apply elem_of_nil in Hi.
Qed.

Lemma run_Inv acts : Inv (fst (run acts)) (snd (run acts)).
Proof.
  unfold run. destruct (run_from_step acts W0 []) as (es & -> & Hs).
  apply (ws_inv _ _ _ Hs []), Inv_W0.
Qed.

Lemma run_app acts more :
  run (acts ++ more) = run_from (run acts) more.
Proof. unfold run, run_from. apply fold_left_app. Qed.

End WorldSafety.

Section Preserves.

Context (R : World → World → Prop) `{!StateRel R}.

Lemma pres_ret {A} (x : A) : preserves R (ret x).
Proof. intros w w' es r [= <- <- <-]. apply rel_refl. Qed.

Lemma pres_throw {A} : preserves R (@throw World A).
Proof. intros w w' es r [= <- <- <-]. apply rel_refl. Qed.

Lemma pres_get : preserves R (@get World).
Proof. intros w w' es r [= <- <- <-]. apply rel_refl. Qed.

Lemma pres_bind {A B} (m : Prog World A) (k : A → Prog World B) :
  preserves R m → (∀ x, preserves R (k x)) → preserves R (bind m k).
Proof.
  intros Hm Hk w w' es r. unfold bind.
  destruct (m w) as [[w1 es1] [x|]] eqn:E1.
  - destruct (k x w1) as [[w2 es2] r2] eqn:E2. intros [= <- <- <-].
    eapply rel_trans; [by eapply Hm|by eapply Hk].
  - intros [= <- <- <-]. by eapply Hm.
Qed.

Lemma pres_each {X} (f : X → Prog World unit) xs :
  (∀ x, preserves R (f x)) → preserves R (each f xs).
Proof.
  intros Hf. induction xs as [|x xs IH]; simpl.
  - apply pres_ret.
  - apply pres_bind; [apply Hf|by intros _].
Qed.

Lemma pres_on_app {A} i (m : Prog App A) : preserves R (on_app i m).
Proof.
  intros w w' es r. unfold on_app. destruct (_apps w !! i) as [a|].
  - destruct (m a) as [[a' es'] r']. intros [= <- <- <-]. apply rel_apps.
  - intros [= <- <- <-]. apply rel_refl.
Qed.

Lemma pres_modify (f : World → World) :
  (∀ w, R w (f w)) → preserves R (modify f).
Proof. intros Hf w w' es r [= <- <- <-]. apply Hf. Qed.

End Preserves.

Ltac pres :=
  repeat first
    [ apply pres_ret; apply _ | apply pres_throw; apply _ | apply pres_get; apply _
    | apply pres_bind; [apply _| |intros ?]
    | apply pres_each; [apply _|intros ?]
    | apply pres_on_app; apply _
    | apply pres_modify; intros ?; done
    | match goal with |- preserves _ (if ?b then _ else _) => destruct b end ].

#[global] Instance apps_only_rel : StateRel apps_only.
Proof.
  split.
  - intros w. by destruct w.
  - unfold apps_only. intros w1 w2 w3 -> ->. done.
  - done.
Qed.

#[global] Instance same_lock_rel : StateRel same_lock.
Proof. split; unfold same_lock; [done|congruence|done]. Qed.

Section Globals.

Lemma _check_apps_only i : preserves apps_only (_check i).
Proof. unfold _check. pres. Qed.

Lemma _check_same_lock i : preserves same_lock (_check i).
Proof.
  unfold _check. pres.
Qed.

Lemma other_actions_same_lock act :
  act ≠ Lock → act ≠ Unlock → preserves same_lock (perform act).
Proof.
  destruct act; try done; intros _ _; simpl;
    unfold discard, new_App, _bindAutoStart, _bindAutoEnd, document_ready,
      window_beforeunload, ignite; pres.
Qed.

End Globals.

Section Check.

Lemma set_apps_id w : set_apps (_apps w) w = w.
Proof. by destruct w. Qed.

Lemma on_app_unchanged {A} i (m : Prog App A) w a es r :
  _apps w !! i = Some a → m a = (a, es, r) → on_app i m w = (w, es, r).
Proof.
  intros Hi Hm. unfold on_app. rewrite Hi, Hm.
  by rewrite (list_insert_id _ _ _ Hi), set_apps_id.
Qed.

Lemma on_app_get i w a : _apps w !! i = Some a → on_app i get w = (w, [], Ok a).
Proof. intros Hi. by apply (on_app_unchanged _ _ _ a). Qed.

Lemma on_app_missing {A} i (m : Prog App A) w :
  _apps w !! i = None → on_app i m w = (w, [], Throw).
Proof. intros Hi. unfold on_app. by rewrite Hi. Qed.

Lemma _check_unfold i w a :
  _apps w !! i = Some a →
  _check i w =
    if (0 <? _lockBarrier w)%Z then (w, [], Ok tt)
    else if _isIgnited a || _isDocReady w then on_app i (this_initialize i) w
    else (w, [], Ok tt).
Proof.
  intros Hi. unfold _check, bind. change (get w) with (w, @nil effect, Ok w).
  simpl. destruct (0 <? _lockBarrier w)%Z; [done|].
  rewrite (on_app_get _ _ _ Hi).
  destruct (_isIgnited a || _isDocReady w); [|done].
  by destruct (on_app i (this_initialize i) w) as [[w' es] r].
Qed.

Lemma _check_locked i w :
  (0 < _lockBarrier w)%Z → _check i w = (w, [], Ok tt).
Proof.
  intros Hl. unfold _check, bind, get; simpl.
  by rewrite (proj2 (Z.ltb_lt _ _) Hl).
Qed.

Lemma this_initialize_ran i a :
  _initialize_ran a = true → this_initialize i a = (a, [], Ok tt).
Proof. intros H. unfold this_initialize, once, bind, get; simpl. by rewrite H. Qed.

Lemma this_initialize_first i a :
  _initialize_ran a = false →
  this_initialize i a = _initialize i (set_initialize_ran true a).
Proof.
  intros H. unfold this_initialize, once, bind, get, modify; simpl. rewrite H.
  by destruct (_initialize i (set_initialize_ran true a)) as [[a' es] r].
Qed.

Lemma this_unload_ran i a :
  _unload_ran a = true → this_unload i a = (a, [], Ok tt).
Proof. intros H. unfold this_unload, once, bind, get; simpl. by rewrite H. Qed.

Lemma this_unload_first i a :
  _unload_ran a = false →
  this_unload i a = _unload i (set_unload_ran true a).
Proof.
  intros H. unfold this_unload, once, bind, get, modify; simpl. rewrite H.
  by destruct (_unload i (set_unload_ran true a)) as [[a' es] r].
Qed.

(** Once the one-shot is used up, the gating check changes nothing. *)
Lemma _check_ran i w a :
  _apps w !! i = Some a → _initialize_ran a = true → _check i w = (w, [], Ok tt).
Proof.
  intros Hi Hran. rewrite (_check_unfold _ _ _ Hi).
  destruct (0 <? _lockBarrier w)%Z; [done|].
  destruct (_isIgnited a || _isDocReady w); [|done].
  apply (on_app_unchanged _ _ _ _ _ _ Hi). by apply this_initialize_ran.
Qed.

(** Whatever happens after app [i] initialized adds no effect of its
    initialization to the log, and the app stays initialized. *)
Lemma after_initialized acts more i :
  has_initialized (fst (run acts)) i = true →
  ∃ es, snd (run (acts ++ more)) = snd (run acts) ++ es ∧
        count is_initialize_effect (view i es) = 0 ∧
        has_initialized (fst (run (acts ++ more))) i = true.
Proof.
  intros Hinit. rewrite run_app. pose proof (run_Inv acts) as HI.
  destruct (run acts) as [w l]; simpl in *.
  destruct (run_from_step more w l) as (es & Hl & Hs).
  exists es. split; [done|].
  unfold has_initialized in *. destruct (_apps w !! i) as [a|] eqn:Hi; [|done].
  pose proof (inv_flag _ _ (inv_apps _ _ HI i a Hi)) as Hflag.
  split.
  - apply (ws_after _ _ _ Hs i a Hi). congruence.
  - destruct (ws_apps _ _ _ Hs i a Hi) as (a' & -> & Hmono).
    by apply (mono_hasInitialized _ _ Hmono).
Qed.

Lemma initialize_runs_flag acts i :
  initialize_runs i (snd (run acts)) = Nat.b2n (has_initialized (fst (run acts)) i).
Proof.
  pose proof (run_Inv acts) as HI.
  destruct (run acts) as [w l]; simpl in *.
  unfold initialize_runs, has_initialized.
  destruct (_apps w !! i) as [a|] eqn:Hi.
  - pose proof (inv_apps _ _ HI i a Hi) as Ha.
    by rewrite (inv_initialize _ _ Ha), (inv_flag _ _ Ha).
  - by rewrite (inv_none _ _ HI i Hi).
Qed.

Lemma unload_bounds acts i :
  unload_runs i (snd (run acts)) ≤ 1 ∧
  end_calls i (snd (run acts)) ≤ unload_runs i (snd (run acts)) ∧
  end_events i (snd (run acts)) ≤ unload_runs i (snd (run acts)).
Proof.
  pose proof (run_Inv acts) as HI.
  destruct (run acts) as [w l]; simpl in *.
  unfold unload_runs, end_calls, end_events.
  destruct (_apps w !! i) as [a|] eqn:Hi.
  - pose proof (inv_apps _ _ HI i a Hi) as [F1 F2 F3 F4 F5 F6 F7 F8].
    split; [|done]. destruct (_unload_ran a); simpl in F4; lia.
  - rewrite (inv_none _ _ HI i Hi). simpl. lia.
Qed.

End Check.

(** ** The lifecycle properties *)

(** C1. For every app, in every run of the module, the body of
    [_initialize] is entered at most once: exactly once if the app is
    initialized and never otherwise.  Once [_hasInitialized] is true it stays
    true whatever happens next, the body is not entered again, no further
    effect of the initialization is logged, and the gating check, through
    whichever path it is invoked, changes nothing and logs nothing. *)
Theorem C1_initialize_at_most_once (acts more : list action) (i : nat) :
  initialize_runs i (snd (run acts)) ≤ 1 ∧
  initialize_runs i (snd (run acts)) = Nat.b2n (has_initialized (fst (run acts)) i) ∧
  (has_initialized (fst (run acts)) i = true →
     has_initialized (fst (run (acts ++ more))) i = true ∧
     initialize_runs i (snd (run (acts ++ more))) = 1 ∧
     (∃ es, snd (run (acts ++ more)) = snd (run acts) ++ es ∧
            count is_initialize_effect (view i es) = 0) ∧
     _check i (fst (run acts)) = (fst (run acts), [], Ok tt)).
Proof.
  pose proof (λ acts, initialize_runs_flag acts i) as Hruns.
  split; [|split].
  - rewrite Hruns. destruct (has_initialized _ _); simpl; lia.
  - apply Hruns.
  - intros Hinit.
    destruct (after_initialized acts more i Hinit) as (es & Hl & Hes & Hinit').
    split; [done|]. split; [by rewrite Hruns, Hinit'|].
    split; [by exists es|].
    pose proof (run_Inv acts) as HI.
    destruct (run acts) as [w l]; simpl in *.
    unfold has_initialized in Hinit.
    destruct (_apps w !! i) as [a|] eqn:Hi; [|done].
    apply (_check_ran _ _ _ Hi).
    by rewrite <- (inv_flag _ _ (inv_apps _ _ HI i a Hi)).
Qed.

Lemma C1_witness :
  has_initialized (fst (run (boot ++ [DocumentReady]))) 0 = true ∧
  initialize_runs 0
    (snd (run ((boot ++ [DocumentReady]) ++ [Ignite 0; Lock; Unlock]))) = 1.
Proof.
  assert (has_initialized (fst (run (boot ++ [DocumentReady]))) 0 = true) as H
    by (vm_compute; reflexivity).
  split; [exact H|].
  destruct (C1_initialize_at_most_once (boot ++ [DocumentReady])
              [Ignite 0; Lock; Unlock] 0) as (_ & _ & Hafter).
  exact (proj1 (proj2 (Hafter H))).
Defined.

(** The one-shot unload over runs.  For every app, in every run, the
    unload transition (the part of [_unload] behind its [_hasInitialized]
    test) is entered at most once, and the end callback is invoked and the
    ['end'] event emitted only inside it.  While the app has not
    initialized the transition has run zero times and the app has logged
    nothing at all; [smother] then leaves the instance untouched and
    returns it, whereas the window-unload listener of the app, which logs
    nothing either, sets the flag of the one-shot wrapper around
    [_unload]. *)
Lemma unload_only_after_initialize (acts : list action) (i : nat) :
  unload_runs i (snd (run acts)) ≤ 1 ∧
  end_calls i (snd (run acts)) ≤ unload_runs i (snd (run acts)) ∧
  end_events i (snd (run acts)) ≤ unload_runs i (snd (run acts)) ∧
  (has_initialized (fst (run acts)) i = false →
     view i (snd (run acts)) = [] ∧
     unload_runs i (snd (run acts)) = 0 ∧
     end_calls i (snd (run acts)) = 0 ∧
     end_events i (snd (run acts)) = 0 ∧
     ∀ a, _apps (fst (run acts)) !! i = Some a →
       (∀ opts, smother i opts a = (a, [], Ok i)) ∧
       this_unload i a = (set_unload_ran true a, [], Ok tt)).
Proof.
  destruct (unload_bounds acts i) as (B1 & B2 & B3).
  repeat (split; [done|]).
  pose proof (run_Inv acts) as HI.
  destruct (run acts) as [w l]; simpl in *.
  unfold unload_runs, end_calls, end_events, has_initialized.
  destruct (_apps w !! i) as [a|] eqn:Hi.
  - pose proof (inv_apps _ _ HI i a Hi) as [F1 F2 F3 F4 F5 F6 F7 F8].
    intros Hinit. rewrite F2 by congruence. simpl.
    repeat (split; [done|]). intros ? [= <-]. split.
    + intros opts. unfold smother, bind, get; simpl. by rewrite Hinit.
    + destruct (_unload_ran a) eqn:Hran.
      * rewrite this_unload_ran by done. by destruct a; simpl in *; subst.
      * rewrite this_unload_first by done.
        unfold _unload, bind, get; simpl. by rewrite Hinit.
  - rewrite (inv_none _ _ HI i Hi). simpl.
    intros _. repeat (split; [done|]). done.
Qed.

(** Once the one-shot wrapper of [_unload] of an app is used up without
    the transition having been entered, nothing that happens afterwards
    enters it: the end callback is never invoked and ['end'] never
    emitted. *)
Lemma spent_one_shot acts more i a :
  _apps (fst (run acts)) !! i = Some a → _unload_ran a = true →
  unload_runs i (snd (run acts)) = 0 →
  unload_runs i (snd (run (acts ++ more))) = 0 ∧
  end_calls i (snd (run (acts ++ more))) = 0 ∧
  end_events i (snd (run (acts ++ more))) = 0.
Proof.
  intros Hi Hran Hzero.
  destruct (unload_bounds (acts ++ more) i) as (_ & B2 & B3).
  assert (unload_runs i (snd (run (acts ++ more))) = 0) as Hnone; [|lia].
  clear B2 B3. rewrite run_app. unfold unload_runs in *.
  destruct (run acts) as [w l]; simpl in *.
  destruct (run_from_step more w l) as (es & -> & Hs).
  rewrite view_app, count_app, Hzero. simpl.
  exact (ws_spent _ _ _ Hs i a Hi Hran).
Qed.

(** C2.  The failing run.  The base app registers an end function; the
    document is not ready, so the app has not initialized.  [smother()] at
    this point changes nothing.  A window-unload event at this point logs
    nothing, but it is not a no-op: it uses up the one-shot wrapper of the
    app's [_unload].  The difference shows once the document is ready and
    the app has initialized.  After the early [smother()], a [smother()]
    enters the unload transition and invokes the end function.  After the
    early window-unload event it does not, and nothing does: however the
    run goes on, the transition is never entered, the end function never
    invoked and ['end'] never emitted. *)
Theorem C2_early_window_unload_is_not_a_noop (f : callback) (more : list action) :
  let early := boot ++ [End 0 (JFun f)] in
  has_initialized (fst (run early)) 0 = false ∧
  run (early ++ [Smother 0 None]) = run early ∧
  (_unload_ran <$> _apps (fst (run early)) !! 0) = Some false ∧
  (_unload_ran <$> _apps (fst (run (early ++ [WindowUnload]))) !! 0) = Some true ∧
  fst (run (early ++ [WindowUnload])) ≠ fst (run early) ∧
  snd (run (early ++ [WindowUnload])) = [] ∧
  has_initialized
    (fst (run (early ++ [Smother 0 None; DocumentReady]))) 0 = true ∧
  unload_runs 0
    (snd (run (early ++ [Smother 0 None; DocumentReady; Smother 0 None]))) = 1 ∧
  end_calls 0
    (snd (run (early ++ [Smother 0 None; DocumentReady; Smother 0 None]))) = 1 ∧
  has_initialized
    (fst (run (early ++ [WindowUnload; DocumentReady]))) 0 = true ∧
  unload_runs 0
    (snd (run ((early ++ [WindowUnload; DocumentReady; Smother 0 None]) ++ more)))
    = 0 ∧
  end_calls 0
    (snd (run ((early ++ [WindowUnload; DocumentReady; Smother 0 None]) ++ more)))
    = 0 ∧
  end_events 0
    (snd (run ((early ++ [WindowUnload; DocumentReady; Smother 0 None]) ++ more)))
    = 0.
Proof.
  intros early.
  assert (∃ a, _apps (fst (run (early ++ [WindowUnload; DocumentReady;
                                           Smother 0 None]))) !! 0 = Some a ∧
               _unload_ran a = true) as (a & Ha & Hran)
    by (vm_compute; eexists; split; reflexivity).
  assert (unload_runs 0 (snd (run (early ++ [WindowUnload; DocumentReady;
                                             Smother 0 None]))) = 0) as Hzero
    by (vm_compute; reflexivity).
  pose proof (spent_one_shot _ more 0 a Ha Hran Hzero) as (S1 & S2 & S3).
  clear Ha Hran Hzero. subst early. destruct f as [name body].
  repeat split; try assumption; try (vm_compute; reflexivity).
  - intros [=].
  - vm_compute. by destruct (body (GMap GEmpty)) as [c []].
  - vm_compute. by destruct (body (GMap GEmpty)) as [c []].
Qed.

Section Gate.

Lemma has_initialized_insert w i a :
  i < length (_apps w) →
  has_initialized (set_apps (<[i:=a]> (_apps w)) w) i = _hasInitialized a.
Proof.
  intros Hlt. unfold has_initialized; simpl.
  by rewrite list_lookup_insert_eq.
Qed.

(** What one gating check does to its app, in a state that satisfies the
    invariant of runs. *)
Lemma _check_gate w l i a :
  Inv w l → _apps w !! i = Some a →
  has_initialized (fst (fst (_check i w))) i = _hasInitialized a || gate w a ∧
  count is_enter_initialize (snd (fst (_check i w)))
    = Nat.b2n (gate w a && negb (_hasInitialized a)).
Proof.
  intros HI Hi. pose proof (inv_flag _ _ (inv_apps _ _ HI i a Hi)) as Hflag.
  pose proof (lookup_lt_Some _ _ _ Hi) as Hlt.
  assert (has_initialized w i = _hasInitialized a) as Hw
    by (unfold has_initialized; by rewrite Hi).
  rewrite (_check_unfold _ _ _ Hi). unfold gate.
  destruct (0 <? _lockBarrier w)%Z; simpl.
  { rewrite Hw. by rewrite orb_false_r. }
  destruct (_isIgnited a || _isDocReady w); simpl.
  2: { rewrite Hw. by rewrite orb_false_r. }
  unfold on_app. rewrite Hi.
  destruct (_initialize_ran a) eqn:Hran.
  - rewrite this_initialize_ran by done. simpl.
    rewrite has_initialized_insert by done. by rewrite Hflag.
  - rewrite this_initialize_first by done.
    destruct (_initialize i (set_initialize_ran true a)) as [[a' es] r] eqn:E.
    simpl. rewrite has_initialized_insert by done.
    apply _initialize_log in E as [Hlog (c & sc & st & ->)].
    apply initialize_log_facts in Hlog as (_ & -> & _).
    simpl. by rewrite Hflag, orb_true_r.
Qed.

Lemma each_check_locked js w :
  (0 < _lockBarrier w)%Z → each _check js w = (w, [], Ok tt).
Proof.
  intros Hl. induction js as [|j js IH]; simpl; [done|].
  unfold bind. by rewrite (_check_locked _ _ Hl), IH.
Qed.

(** A broadcast that returns normally has initialized every app it went
    through whose other conditions held. *)
Lemma each_check_initializes js : ∀ w l w' es,
  Inv w l → (_lockBarrier w ≤ 0)%Z →
  each _check js w = (w', es, Ok tt) →
  ∀ j b, j ∈ js → _apps w !! j = Some b →
    _isIgnited b || _isDocReady w = true →
    has_initialized w' j = true.
Proof.
  induction js as [|j0 js IH]; intros w l w' es HI Hl Heach j b Hj Hb Hcond.
  { by apply elem_of_nil in Hj. }
  simpl in Heach. unfold bind in Heach.
  destruct (_check j0 w) as [[w1 es1] [[]|]] eqn:E1; [|done].
  destruct (each _check js w1) as [[w2 es2] r2] eqn:E2.
  injection Heach as <- <- ->.
  pose proof (_check_safe _ _ _ _ _ E1) as S1.
  pose proof (_check_apps_only _ _ _ _ _ E1) as G1.
  pose proof (wsafe_each _ js _check_safe _ _ _ _ E2) as S2.
  assert (_lockBarrier w1 = _lockBarrier w ∧ _isDocReady w1 = _isDocReady w)
    as [Hl1 Hd1] by (rewrite G1; done).
  destruct (ws_apps _ _ _ S1 j b Hb) as (b1 & Hb1 & Hmono1).
  destruct (decide (j = j0)) as [->|Hne].
  - destruct (_check_gate w l j0 b HI Hb) as [Hg _].
    rewrite E1 in Hg. simpl in Hg.
    assert (gate w b = true) as Hgate.
    { unfold gate. rewrite Hcond, andb_true_r.
      apply negb_true_iff, Z.ltb_ge. done. }
    rewrite Hgate, orb_true_r in Hg.
    unfold has_initialized in Hg |- *. rewrite Hb1 in Hg.
    destruct (ws_apps _ _ _ S2 j0 b1 Hb1) as (b2 & -> & Hmono2).
    by apply (mono_hasInitialized _ _ Hmono2).
  - apply (IH w1 (l ++ es1) w2 es2 (ws_inv _ _ _ S1 _ HI) ltac:(lia) E2 j b1);
      [|done|].
    + apply elem_of_cons in Hj as [?|?]; [done|done].
    + rewrite Hd1. apply orb_true_iff in Hcond as [Hign|Hrdy].
      * by rewrite (mono_isIgnited _ _ Hmono1 Hign).
      * rewrite Hrdy. apply orb_true_r.
Qed.

Lemma Inv_globals w l z :
  Inv w l → Inv (set_lockBarrier z w) l.
Proof. intros [I1 I2 I3]. by constructor. Qed.

End Gate.

(** C3. In every state a run can reach, the gating check of an app leaves
    it initialized exactly when it was initialized already or the lock
    counter is not greater than zero and the app is ignited or the document
    is ready; the body of [_initialize] runs in that check exactly when
    the condition holds and the app was not initialized before.  While the
    counter is greater than zero the check does nothing, and an [unlock]
    that leaves the counter above zero does nothing but decrement it.  The
    [unlock] that returns the counter to zero broadcasts the check: when it
    returns normally, every app that is ignited or whose document is ready
    is initialized. *)
Theorem C3_gating_check (acts : list action) (i : nat) (a : App) :
  _apps (fst (run acts)) !! i = Some a →
  has_initialized (fst (fst (_check i (fst (run acts))))) i
    = _hasInitialized a || gate (fst (run acts)) a ∧
  count is_enter_initialize (snd (fst (_check i (fst (run acts)))))
    = Nat.b2n (gate (fst (run acts)) a && negb (_hasInitialized a)) ∧
  ((0 < _lockBarrier (fst (run acts)))%Z →
     _check i (fst (run acts)) = (fst (run acts), [], Ok tt)) ∧
  ((1 < _lockBarrier (fst (run acts)))%Z →
     unlock (fst (run acts))
       = (set_lockBarrier (_lockBarrier (fst (run acts)) - 1) (fst (run acts)),
          [], Ok tt)) ∧
  (_lockBarrier (fst (run acts)) = 1%Z →
   _isIgnited a || _isDocReady (fst (run acts)) = true →
   ∀ w' es, unlock (fst (run acts)) = (w', es, Ok tt) →
     _lockBarrier w' = 0%Z ∧ has_initialized w' i = true).
Proof.
  pose proof (run_Inv acts) as HI.
  destruct (run acts) as [w l]; simpl in *. intros Hi.
  destruct (_check_gate w l i a HI Hi) as [G1 G2].
  split; [done|]. split; [done|]. split; [apply _check_locked|]. split.
  - intros Hl. unfold unlock, _runChecks, bind, modify, get; simpl.
    rewrite each_check_locked by (simpl; lia). done.
  - intros Hl Hcond w' es. unfold unlock, _runChecks, bind, modify, get; simpl.
    rewrite Hl. simpl.
    destruct (each _check _ _) as [[w1 es1] r1] eqn:E. intros [= <- <- ->].
    split.
    + pose proof (pres_each apps_only _check _ _check_apps_only _ _ _ _ E) as G.
      rewrite G. done.
    + apply (each_check_initializes _ _ l _ _ (Inv_globals _ _ 0%Z HI)
               ltac:(simpl; lia) E i a); [|done|done].
      apply elem_of_seq. pose proof (lookup_lt_Some _ _ _ Hi). lia.
Qed.

Lemma C3_witness :
  _apps (fst (run (boot ++ [Lock; DocumentReady]))) !! 0
    = Some (mkApp ∅ [] JFalsy JFalsy false false true true false false) ∧
  has_initialized (fst (fst (unlock (fst (run (boot ++ [Lock; DocumentReady])))))) 0
    = true.
Proof.
  assert (_apps (fst (run (boot ++ [Lock; DocumentReady]))) !! 0
    = Some (mkApp ∅ [] JFalsy JFalsy false false true true false false)) as H
    by (vm_compute; reflexivity).
  split; [exact H|].
  destruct (C3_gating_check (boot ++ [Lock; DocumentReady]) 0 _ H)
    as (_ & _ & _ & _ & Hunlock).
  destruct (unlock (fst (run (boot ++ [Lock; DocumentReady]))))
    as [[w' es] r] eqn:E.
  assert (r = Ok tt) as -> by (vm_compute in E; congruence).
  exact (proj2 (Hunlock ltac:(vm_compute; reflexivity)
                        ltac:(vm_compute; reflexivity) w' es eq_refl)).
Defined.

Section Transitions.

Variable i : nat.

Lemma each_app {S X} (f : X → Prog S unit) xs ys s :
  each f (xs ++ ys) s = bind (each f xs) (λ _, each f ys) s.
Proof.
  revert s. induction xs as [|x xs IH]; intros s; simpl.
  - unfold bind, ret. by destruct (each f ys s) as [[s' es] r].
  - unfold bind in *. destruct (f x s) as [[s1 es1] [[]|]]; [|done].
    rewrite IH. destruct (each f xs s1) as [[s2 es2] [[]|]]; [|done].
    destruct (each f ys s2) as [[s3 es3] r3]. by rewrite app_assoc.
Qed.

Lemma call_function p args cb a :
  call i p args (JFun cb) a =
    (set_config (fst (cb_run cb (config a))) a,
     [Call i p (cb_name cb) (args (config a))],
     match snd (cb_run cb (config a)) with Returns => Ok tt | Raises => Throw end).
Proof.
  unfold call, bind, get, emit, modify; simpl.
  by destruct (snd (cb_run cb (config a))).
Qed.

Lemma each_setup_returns fs : ∀ a,
  Forall returns_normally fs →
  each (call i PSetup (λ c, [AConfig c])) (map JFun fs) a =
    (set_config (after_setup fs (config a)) a, setup_log i fs (config a), Ok tt).
Proof.
  induction fs as [|f fs IH]; intros a Hfs; cbn [each map].
  - unfold ret. simpl. by rewrite set_config_id.
  - apply Forall_cons in Hfs as [Hf Hfs]. unfold bind.
    rewrite call_function, Hf, (IH _ Hfs). done.
Qed.

Lemma setup_log_app pre fs c :
  setup_log i (pre ++ fs) c = setup_log i pre c ++ setup_log i fs (after_setup pre c).
Proof.
  revert c. induction pre as [|f pre IH]; intros c; simpl; [done|].
  by rewrite IH.
Qed.

Lemma each_setup_raises pre f post a :
  Forall returns_normally pre →
  snd (cb_run f (after_setup pre (config a))) = Raises →
  each (call i PSetup (λ c, [AConfig c])) (map JFun pre ++ JFun f :: post) a =
    (set_config (fst (cb_run f (after_setup pre (config a)))) a,
     setup_log i (pre ++ [f]) (config a), Throw).
Proof.
  intros Hpre Hf. rewrite each_app. unfold bind at 1.
  rewrite (each_setup_returns _ _ Hpre). cbn [each]. unfold bind.
  rewrite call_function. simpl. rewrite Hf, setup_log_app. done.
Qed.

Lemma setup_log_lifecycle fs c : lifecycle_names (setup_log i fs c) = [].
Proof. revert c. induction fs as [|f fs IH]; intros c; simpl; [done|apply IH]. Qed.

End Transitions.

(** C4. The one execution of [_initialize], when every queued setup value
    is a function that returns normally and the start value is such a
    function (or a value whose [call] property is one) or was never
    registered: [_hasInitialized] is set; then
    ['setup:before'] goes out with [config]; the setup functions run in
    registration order, each on the [config] its predecessors left, and the
    queue is emptied; ['setup:after'] and ['start:before'] go out; the start
    function (a no-op by default) runs on the [config] the setup functions
    produced and its reference is dropped; ['start:after'] goes out.  The
    four lifecycle events of this execution are the four names in their
    order, and in every run the lifecycle events an app has triggered so
    far are an initial part of that sequence, so none fires twice or out of
    order. *)
Theorem C4_initialization_order (acts : list action) (i : nat) (a : App)
    (fs : list callback) :
  lifecycle_events i (snd (run acts)) `prefix_of` lifecycle ∧
  (setupCalls a = map JFun fs → Forall returns_normally fs →
   startCall a ≠ JTruthy → returns_normally (start_fn (startCall a)) →
   let c1 := after_setup fs (config a) in
   let g := start_fn (startCall a) in
   let c2 := fst (cb_run g c1) in
   _initialize i a =
     (set_config c2 (set_setupCalls [] (set_startCall JFalsy
        (set_hasInitialized true a))),
      [Enter i Initialize; Trigger i "setup:before" (Some (config a))] ++
      setup_log i fs (config a) ++
      [Trigger i "setup:after" (Some c1); Trigger i "start:before" (Some c1);
       Call i PStart (cb_name g) [AConfig c1];
       Trigger i "start:after" (Some c2)],
      Ok tt) ∧
   lifecycle_names (snd (fst (_initialize i a))) = lifecycle).
Proof.
  split.
  { pose proof (run_Inv acts) as HI. destruct (run acts) as [w l]; simpl in *.
    unfold lifecycle_events. destruct (_apps w !! i) as [b|] eqn:Hi.
    - apply (inv_lifecycle _ _ (inv_apps _ _ HI i b Hi)).
    - rewrite (inv_none _ _ HI i Hi). by exists lifecycle. }
  intros Hsetup Hfs Hstart Hg c1 g c2.
  assert (_initialize i a =
     (set_config c2 (set_setupCalls [] (set_startCall JFalsy
        (set_hasInitialized true a))),
      [Enter i Initialize; Trigger i "setup:before" (Some (config a))] ++
      setup_log i fs (config a) ++
      [Trigger i "setup:after" (Some c1); Trigger i "start:before" (Some c1);
       Call i PStart (cb_name g) [AConfig c1];
       Trigger i "start:after" (Some c2)],
      Ok tt)) as E.
  { rewrite _initialize_unfold, Hsetup, (each_setup_returns _ _ _ Hfs). simpl.
    assert (∀ x, call i PStart (λ c, [AConfig c])
                   (if truthy (startCall a) then startCall a else JFun noop) x
                 = call i PStart (λ c, [AConfig c]) (JFun g) x) as Hcall
      by (intros x; subst g; by destruct (startCall a)).
    rewrite Hcall, call_function. simpl. fold c1. fold c2.
    pose proof (Hg c1) as Hret. fold g in Hret. rewrite Hret. done. }
  split; [exact E|]. rewrite E. simpl.
  by rewrite lifecycle_names_app, setup_log_lifecycle.
Qed.

Lemma C4_witness :
  let a := mkApp ∅ [JFun sample_setup1; JFun sample_setup2] JFalsy
                 (JFun sample_start) false false true true false false in
  (setupCalls a = map JFun [sample_setup1; sample_setup2] ∧
   Forall returns_normally [sample_setup1; sample_setup2] ∧
   startCall a ≠ JTruthy ∧
   returns_normally (start_fn (startCall a))) ∧
  lifecycle_names (snd (fst (_initialize 0 a))) = lifecycle.
Proof.
  intros a.
  assert (setupCalls a = map JFun [sample_setup1; sample_setup2]) as H1
    by reflexivity.
  assert (Forall returns_normally [sample_setup1; sample_setup2]) as H2
    by (repeat constructor).
  assert (startCall a ≠ JTruthy) as H3 by discriminate.
  assert (returns_normally (start_fn (startCall a))) as H4
    by (intros c; reflexivity).
  split; [by repeat split|].
  exact (proj2 (proj2 (C4_initialization_order [] 0 a _) H1 H2 H3 H4)).
Defined.

(** The scenario of the specification: the base app registers two setup
    functions and a start function; the lock counter is raised before the
    document is ready.  The document becoming ready initializes nothing;
    the matching [unlock] does, and the start function sees what the setup
    functions wrote. *)
Example locked_start_scenario :
  let cfg1 : Config := <["a":=1%Z]> ∅ in
  let cfg2 : Config := <["b":=2%Z]> cfg1 in
  let cfg3 : Config := <["started":=1%Z]> cfg2 in
  let registered :=
    boot ++ [Lock; Setup 0 (JFun sample_setup1); Setup 0 (JFun sample_setup2);
             Start 0 (JFun sample_start)] in
  snd (run (registered ++ [DocumentReady])) = [] ∧
  snd (run (registered ++ [DocumentReady; Unlock])) =
    [Enter 0 Initialize;
     Trigger 0 "setup:before" (Some ∅);
     Call 0 PSetup "s1" [AConfig ∅];
     Call 0 PSetup "s2" [AConfig cfg1];
     Trigger 0 "setup:after" (Some cfg2);
     Trigger 0 "start:before" (Some cfg2);
     Call 0 PStart "f" [AConfig cfg2];
     Trigger 0 "start:after" (Some cfg3)].
Proof. vm_compute. split; reflexivity. Qed.

(** C7. No part of the core catches an exception of a callback.  However
    [_initialize] ends, [_hasInitialized] is true afterwards.  When a setup
    function raises, the transition ends there with the exception: the
    functions before it have run, its own changes to [config] stay, and
    nothing after it happens: the later queue entries are not called, the
    queue is not cleared, no further event goes out and the start value is
    neither called nor dropped.  When the start function raises, the
    transition ends after ['start:before']: ['start:after'] does not go out
    and the start reference is not dropped.  The exception leaves the
    gating check, the broadcast or dispatch loop that called it (whose later
    entries are skipped) and [ignite]; the one-shot is used up, so a later
    check does not run the transition again. *)
Theorem C7_callback_raises :
  (∀ i a a' es r, _initialize i a = (a', es, r) → _hasInitialized a' = true) ∧
  (∀ i a pre f post,
     setupCalls a = map JFun pre ++ JFun f :: post →
     Forall returns_normally pre →
     snd (cb_run f (after_setup pre (config a))) = Raises →
     _initialize i a =
       (set_config (fst (cb_run f (after_setup pre (config a)))) (initializing a),
        [Enter i Initialize; Trigger i "setup:before" (Some (config a))] ++
        setup_log i (pre ++ [f]) (config a),
        Throw)) ∧
  (∀ i a fs g,
     setupCalls a = map JFun fs → Forall returns_normally fs →
     startCall a = JFun g →
     snd (cb_run g (after_setup fs (config a))) = Raises →
     _initialize i a =
       (set_config (fst (cb_run g (after_setup fs (config a))))
          (set_setupCalls [] (set_hasInitialized true a)),
        [Enter i Initialize; Trigger i "setup:before" (Some (config a))] ++
        setup_log i fs (config a) ++
        [Trigger i "setup:after" (Some (after_setup fs (config a)));
         Trigger i "start:before" (Some (after_setup fs (config a)));
         Call i PStart (cb_name g) [AConfig (after_setup fs (config a))]],
        Throw)) ∧
  (∀ w i a a' es,
     _apps w !! i = Some a → _initialize_ran a = false → gate w a = true →
     _initialize i (set_initialize_ran true a) = (a', es, Throw) →
     let w' := set_apps (<[i:=a']> (_apps w)) w in
     _check i w = (w', es, Throw) ∧
     (∀ rest, each _check (i :: rest) w = (w', es, Throw)) ∧
     _hasInitialized a' = true ∧
     _check i w' = (w', [], Ok tt)) ∧
  (∀ w i w1 w2 es,
     fst (fst (on_app i (modify (set_isIgnited true)) w)) = w1 →
     _check i w1 = (w2, es, Throw) →
     ignite i w = (w2, es, Throw)).
Proof.
  split; [|split; [|split; [|split]]].
  - intros i a a' es r E.
    apply _initialize_log in E as [_ (c & sc & st & ->)]. done.
  - intros i a pre f post Hsetup Hpre Hf.
    rewrite _initialize_unfold, Hsetup.
    rewrite (each_setup_raises i pre f post (initializing a) Hpre Hf). done.
  - intros i a fs g Hsetup Hfs Hstart Hg.
    rewrite _initialize_unfold, Hsetup, (each_setup_returns _ _ _ Hfs). simpl.
    rewrite Hstart. simpl. unfold bind, get, emit, modify; simpl.
    rewrite Hg. unfold initializing. rewrite Hstart.
    destruct a; simpl in *; by subst.
  - intros w i a a' es Hi Hran Hgate E w'.
    assert (_check i w = (w', es, Throw)) as Hcheck.
    { rewrite (_check_unfold _ _ _ Hi). unfold gate in Hgate.
      apply andb_true_iff in Hgate as [Hl Hc].
      apply negb_true_iff in Hl. rewrite Hl, Hc.
      unfold on_app. rewrite Hi, (this_initialize_first _ _ Hran), E. done. }
    split; [done|]. split.
    { intros rest. simpl. unfold bind. by rewrite Hcheck. }
    apply _initialize_log in E as [_ (c & sc & st & ->)].
    split; [done|].
    eapply _check_ran.
    + subst w'. simpl. apply list_lookup_insert_eq. by eapply lookup_lt_Some.
    + done.
  - intros w i w1 w2 es Hw1 Hcheck. unfold ignite, bind.
    destruct (on_app i (modify (set_isIgnited true)) w) as [[w1' es1] r1] eqn:E.
    simpl in Hw1. subst w1'.
    unfold on_app in E. destruct (_apps w !! i) as [a|] eqn:Hi.
    + simpl in E. injection E as <- <- <-. by rewrite Hcheck.
    + injection E as <- <- <-.
      unfold _check, bind, get in Hcheck. simpl in Hcheck.
      destruct (0 <? _lockBarrier w)%Z; [done|].
      rewrite (on_app_missing _ _ _ Hi) in Hcheck.
      injection Hcheck as <- <-. done.
Qed.

Lemma C7_witness :
  let a := mkApp ∅ [JFun sample_setup1; JFun sample_failing; JFun sample_setup2]
                 JFalsy (JFun sample_start) false false true true false false in
  let b := mkApp ∅ [JFun sample_setup1] JFalsy (JFun sample_failing)
                 false false true true false false in
  (setupCalls a = map JFun [sample_setup1] ++ JFun sample_failing :: [JFun sample_setup2] ∧
   Forall returns_normally [sample_setup1] ∧
   snd (cb_run sample_failing (after_setup [sample_setup1] (config a))) = Raises) ∧
  (setupCalls b = map JFun [sample_setup1] ∧
   startCall b = JFun sample_failing ∧
   snd (cb_run sample_failing (after_setup [sample_setup1] (config b))) = Raises) ∧
  snd (_initialize 0 a) = Throw ∧
  _hasInitialized (fst (fst (_initialize 0 a))) = true ∧
  snd (_initialize 0 b) = Throw.
Proof.
  intros a b.
  assert (setupCalls a
          = map JFun [sample_setup1] ++ JFun sample_failing :: [JFun sample_setup2])
    as A1 by reflexivity.
  assert (Forall returns_normally [sample_setup1]) as A2 by (repeat constructor).
  assert (snd (cb_run sample_failing (after_setup [sample_setup1] (config a)))
          = Raises) as A3 by reflexivity.
  assert (setupCalls b = map JFun [sample_setup1]) as B1 by reflexivity.
  assert (startCall b = JFun sample_failing) as B2 by reflexivity.
  assert (snd (cb_run sample_failing (after_setup [sample_setup1] (config b)))
          = Raises) as B3 by reflexivity.
  destruct C7_callback_raises as (Hflag & Hsetup & Hstart & _ & _).
  split; [done|]. split; [done|]. split; [|split].
  - by rewrite (Hsetup 0 a _ _ _ A1 A2 A3).
  - destruct (_initialize 0 a) as [[a' es] r] eqn:E. exact (Hflag 0 a a' es r E).
  - by rewrite (Hstart 0 b _ _ B1 A2 B2 B3).
Defined.

Section LockCounter.

Lemma _runChecks_same_lock : preserves same_lock _runChecks.
Proof. unfold _runChecks. pres. Qed.

Lemma perform_lock act w :
  _lockBarrier (fst (fst (perform act w)))
    = (_lockBarrier w + lock_balance [act])%Z.
Proof.
  destruct (perform act w) as [[w' es] r] eqn:E. simpl.
  destruct act;
    try (apply other_actions_same_lock in E; [|done|done];
         rewrite E; simpl; lia).
  - unfold perform, lock, modify in E. injection E as <- <- <-. simpl. lia.
  - unfold perform, unlock, bind, modify in E.
    destruct (_runChecks _) as [[w1 es1] r1] eqn:E1.
    apply _runChecks_same_lock in E1. injection E as <- <- <-.
    rewrite E1. simpl. lia.
Qed.

Lemma lock_balance_cons act acts :
  lock_balance (act :: acts) = (lock_balance [act] + lock_balance acts)%Z.
Proof. destruct act; simpl; lia. Qed.

Lemma run_from_lock acts : ∀ st,
  _lockBarrier (fst (run_from st acts))
    = (_lockBarrier (fst st) + lock_balance acts)%Z.
Proof.
  induction acts as [|act acts IH]; intros [w l]; [simpl; lia|].
  rewrite (lock_balance_cons act acts).
  change (run_from (w, l) (act :: acts)) with (run_from (step (w, l) act) acts).
  rewrite IH. unfold step. cbn [fst snd].
  pose proof (perform_lock act w) as H.
  destruct (perform act w) as [[w' es] r]. cbn [fst snd] in *. lia.
Qed.

Lemma this_initialize_owned i a a' es r :
  this_initialize i a = (a', es, r) → Forall (λ e, owner e = Some i) es.
Proof.
  destruct (_initialize_ran a) eqn:Hran.
  - rewrite this_initialize_ran by done. intros [= <- <- <-]. constructor.
  - rewrite this_initialize_first by done. intros E.
    apply _initialize_log in E as [Hlog _].
    by apply initialize_log_facts in Hlog as [Hown _].
Qed.

Lemma owned_no_console_error i es :
  Forall (λ e, owner e = Some i) es → count is_console_error es = 0.
Proof.
  intros H. apply count_zero. intros e He.
  rewrite Forall_forall in H. specialize (H e He). by destruct e.
Qed.

Lemma _check_no_console_error i w w' es r :
  _check i w = (w', es, r) → count is_console_error es = 0.
Proof.
  destruct (_apps w !! i) as [a|] eqn:Hi.
  - rewrite (_check_unfold _ _ _ Hi).
    destruct (0 <? _lockBarrier w)%Z; [by intros [= <- <- <-]|].
    destruct (_isIgnited a || _isDocReady w); [|by intros [= <- <- <-]].
    unfold on_app. rewrite Hi.
    destruct (this_initialize i a) as [[a' es'] r'] eqn:E. intros [= <- <- <-].
    eapply owned_no_console_error, this_initialize_owned, E.
  - unfold _check, bind. change (get w) with (w, @nil effect, Ok w). simpl.
    destruct (0 <? _lockBarrier w)%Z; [by intros [= <- <- <-]|].
    rewrite (on_app_missing _ _ _ Hi). by intros [= <- <- <-].
Qed.

Lemma each_check_no_console_error js : ∀ w w' es r,
  each _check js w = (w', es, r) → count is_console_error es = 0.
Proof.
  induction js as [|j js IH]; intros w w' es r; simpl.
  - by intros [= <- <- <-].
  - unfold bind. destruct (_check j w) as [[w1 es1] [[]|]] eqn:E1.
    + destruct (each _check js w1) as [[w2 es2] r2] eqn:E2. intros [= <- <- <-].
      rewrite count_app, (_check_no_console_error _ _ _ _ _ E1), (IH _ _ _ _ E2).
      done.
    + intros [= <- <- <-]. by eapply _check_no_console_error.
Qed.

End LockCounter.

(** C8. The lock counter of a run is the number of [lock] calls minus the
    number of [unlock] calls, so more unlocks than locks make it negative.
    [unlock] decrements whatever the counter is and logs no diagnostic.
    The gating check behaves under a counter that is zero or negative
    exactly as under zero: the same effects, the same result and the same
    state, the counter apart; in every state of a run with such a counter
    it leaves initialized every app that is ignited or whose document is
    ready. *)
Theorem C8_negative_counter_is_unlocked :
  (∀ acts, _lockBarrier (fst (run acts)) = lock_balance acts) ∧
  (∀ w w' es r, unlock w = (w', es, r) →
     _lockBarrier w' = (_lockBarrier w - 1)%Z ∧ count is_console_error es = 0) ∧
  (∀ w i, (_lockBarrier w ≤ 0)%Z →
     _check i w =
       (set_lockBarrier (_lockBarrier w)
          (fst (fst (_check i (set_lockBarrier 0 w)))),
        snd (fst (_check i (set_lockBarrier 0 w))),
        snd (_check i (set_lockBarrier 0 w)))) ∧
  (∀ acts i a, (_lockBarrier (fst (run acts)) ≤ 0)%Z →
     _apps (fst (run acts)) !! i = Some a →
     has_initialized (fst (fst (_check i (fst (run acts))))) i
       = _hasInitialized a || (_isIgnited a || _isDocReady (fst (run acts)))).
Proof.
  split; [|split; [|split]].
  - intros acts. unfold run. rewrite run_from_lock. simpl. lia.
  - intros w w' es r. unfold unlock, bind, modify.
    destruct (_runChecks _) as [[w1 es1] r1] eqn:E1. intros [= <- <- <-].
    split.
    + apply _runChecks_same_lock in E1. rewrite E1. done.
    + unfold _runChecks, bind in E1. simpl in E1.
      destruct (each _check _ _) as [[w2 es2] r2] eqn:E2.
      injection E1 as <- <- <-. by eapply each_check_no_console_error.
  - intros w i Hl. destruct (_apps w !! i) as [a|] eqn:Hi.
    + rewrite (_check_unfold i w a Hi).
      rewrite (_check_unfold i (set_lockBarrier 0 w) a Hi). simpl.
      rewrite (proj2 (Z.ltb_ge _ _) Hl).
      destruct (_isIgnited a || _isDocReady w); simpl; [|by destruct w].
      unfold on_app; simpl. rewrite Hi.
      destruct (this_initialize i a) as [[a' es'] r']; simpl. by destruct w.
    + unfold _check, bind.
      change (get w) with (w, @nil effect, Ok w).
      change (get (set_lockBarrier 0 w))
        with (set_lockBarrier 0 w, @nil effect, Ok (set_lockBarrier 0 w)).
      simpl. rewrite (proj2 (Z.ltb_ge _ _) Hl).
      rewrite !on_app_missing by done. simpl. by destruct w.
  - intros acts i a Hl Hi. pose proof (run_Inv acts) as HI.
    destruct (run acts) as [w l]; simpl in *.
    destruct (_check_gate w l i a HI Hi) as [-> _]. unfold gate.
    by rewrite (proj2 (Z.ltb_ge _ _) Hl).
Qed.

Lemma C8_witness :
  ((_lockBarrier (fst (run (boot ++ [Unlock; DocumentReady; NewApp false true])))
    ≤ 0)%Z ∧
   _apps (fst (run (boot ++ [Unlock; DocumentReady; NewApp false true]))) !! 1
     = Some (mkApp ∅ [] JFalsy JFalsy false false false true false false)) ∧
  _lockBarrier (fst (run (boot ++ [Unlock; DocumentReady; NewApp false true])))
    = (-1)%Z ∧
  has_initialized
    (fst (fst (_check 1
       (fst (run (boot ++ [Unlock; DocumentReady; NewApp false true])))))) 1
    = true.
Proof.
  destruct C8_negative_counter_is_unlocked as (Hcount & _ & _ & Hgate).
  assert ((_lockBarrier
             (fst (run (boot ++ [Unlock; DocumentReady; NewApp false true])))
           ≤ 0)%Z) as H1 by (vm_compute; discriminate).
  assert (_apps (fst (run (boot ++ [Unlock; DocumentReady; NewApp false true]))) !! 1
     = Some (mkApp ∅ [] JFalsy JFalsy false false false true false false)) as H2
    by (vm_compute; reflexivity).
  split; [by split|]. split.
  - rewrite Hcount. reflexivity.
  - rewrite (Hgate _ 1 _ H1 H2). vm_compute. reflexivity.
Defined.

Section Registration.

Lemma count_implied P Q l :
  (∀ e, Q e = true → P e = true) → count P l = 0 → count Q l = 0.
Proof.
  intros HPQ. induction l as [|e l IH]; simpl; [done|].
  destruct (P e) eqn:EP; [lia|]. intros H.
  destruct (Q e) eqn:EQ; [by rewrite (HPQ e EQ) in EP|]. by apply IH.
Qed.

Lemma start_call_is_initialize_effect e :
  is_start_call e = true → is_initialize_effect e = true.
Proof. by destruct e as [? ?|? ? ?|? [] ? ?|?]. Qed.

Lemma run_snoc acts act :
  run (acts ++ [act]) = step (run acts) act.
Proof. by rewrite run_app. Qed.

Lemma perform_start i f w a :
  _apps w !! i = Some a →
  perform (Start i f) w =
    (set_apps (<[i:=set_startCall f a]> (_apps w)) w,
     if isFunction f then [] else [ConsoleError "Start must have a function."],
     Ok tt).
Proof.
  intros Hi. simpl. unfold discard, bind, on_app. rewrite Hi.
  unfold start, bind, modify, emit, ret. by destruct (isFunction f).
Qed.

(** An [_initialize] that returns has emptied the queue and dropped the
    start reference. *)
Lemma _initialize_returns i a a' es :
  _initialize i a = (a', es, Ok tt) → startCall a' = JFalsy ∧ setupCalls a' = [].
Proof.
  rewrite _initialize_unfold.
  destruct (each_call_summary i (λ c, [AConfig c]) (setupCalls a) (initializing a))
    as (c1 & es1 & r1 & -> & _).
  destruct r1 as [[]|]; [|done].
  match goal with |- context [call i PStart ?f ?v ?x] =>
    destruct (call_summary i PStart f v x) as (c3 & es3 & r3 & -> & _) end.
  destruct r3 as [[]|]; [|done]. by intros [= <- <-].
Qed.

End Registration.

(** C10. Once an app is initialized, a function handed to [start] is
    stored in [startCall] and, when it is a function, nothing is logged: no
    diagnostic.  Whatever happens afterwards, no start callback of the app
    is invoked any more and the body of [_initialize] is not entered again,
    so the stored function never runs.  Over a whole run the start callback
    is invoked at most once, and an [_initialize] that returns normally has
    dropped the reference it called. *)
Theorem C10_late_start_is_lost (acts more : list action) (i : nat) (f : jsval) :
  has_initialized (fst (run acts)) i = true →
  (∃ a, _apps (fst (run (acts ++ [Start i f]))) !! i = Some a ∧ startCall a = f) ∧
  (isFunction f = true → snd (run (acts ++ [Start i f])) = snd (run acts)) ∧
  start_calls i (snd (run (acts ++ Start i f :: more)))
    = start_calls i (snd (run acts)) ∧
  start_calls i (snd (run acts)) ≤ 1 ∧
  initialize_runs i (snd (run (acts ++ Start i f :: more))) = 1 ∧
  (∀ a a' es, _initialize i a = (a', es, Ok tt) → startCall a' = JFalsy).
Proof.
  intros Hinit.
  destruct (after_initialized acts (Start i f :: more) i Hinit)
    as (es & Hl & Hes & Hinit').
  pose proof (initialize_runs_flag (acts ++ Start i f :: more) i) as Hruns.
  rewrite Hinit' in Hruns.
  rewrite run_snoc. pose proof (run_Inv acts) as HI.
  rewrite Hl in Hruns |- *. clear Hl Hinit'.
  destruct (run acts) as [w l]; simpl in *.
  unfold has_initialized in Hinit.
  destruct (_apps w !! i) as [a|] eqn:Hi; [|done].
  unfold step; cbn [fst snd]. rewrite (perform_start _ _ _ _ Hi). simpl.
  split; [|split; [|split; [|split; [|split]]]].
  - exists (set_startCall f a). split; [|done].
    apply list_lookup_insert_eq. by eapply lookup_lt_Some.
  - intros ->. by rewrite app_nil_r.
  - unfold start_calls. rewrite view_app, count_app.
    rewrite (count_implied is_initialize_effect is_start_call _
               start_call_is_initialize_effect Hes).
    lia.
  - apply (inv_start_call _ _ (inv_apps _ _ HI i a Hi)).
  - done.
  - intros b b' es' E. by apply _initialize_returns in E as [? _].
Qed.

Lemma C10_witness :
  has_initialized (fst (run (boot ++ [DocumentReady]))) 0 = true ∧
  start_calls 0
    (snd (run ((boot ++ [DocumentReady]) ++
               Start 0 (JFun sample_start) :: [Ignite 0; Lock; Unlock; WindowUnload])))
    = start_calls 0 (snd (run (boot ++ [DocumentReady]))).
Proof.
  assert (has_initialized (fst (run (boot ++ [DocumentReady]))) 0 = true) as H
    by (vm_compute; reflexivity).
  split; [exact H|].
  exact (proj1 (proj2 (proj2
    (C10_late_start_is_lost (boot ++ [DocumentReady])
       [Ignite 0; Lock; Unlock; WindowUnload] 0 (JFun sample_start) H)))).
Defined.

Section ManualApps.

Lemma on_app_other {A} i j (m : Prog App A) w :
  i ≠ j → _apps (fst (fst (on_app j m w))) !! i = _apps w !! i.
Proof.
  intros Hij. unfold on_app. destruct (_apps w !! j) as [a|]; [|done].
  destruct (m a) as [[a' es] r]; simpl. by apply list_lookup_insert_ne.
Qed.

Lemma _check_other i j w :
  i ≠ j → _apps (fst (fst (_check j w))) !! i = _apps w !! i.
Proof.
  intros Hij. destruct (_apps w !! j) as [a|] eqn:Hj.
  - rewrite (_check_unfold _ _ _ Hj).
    destruct (0 <? _lockBarrier w)%Z; [done|].
    destruct (_isIgnited a || _isDocReady w); [|done].
    by apply on_app_other.
  - unfold _check, bind. change (get w) with (w, @nil effect, Ok w). simpl.
    destruct (0 <? _lockBarrier w)%Z; [done|].
    by rewrite (on_app_missing _ _ _ Hj).
Qed.

Lemma each_check_other i js : ∀ w,
  i ∉ js → _apps (fst (fst (each _check js w))) !! i = _apps w !! i.
Proof.
  induction js as [|j js IH]; intros w Hi; simpl; [done|].
  apply not_elem_of_cons in Hi as [Hij Hi].
  unfold bind. pose proof (_check_other i j w Hij) as Hj.
  destruct (_check j w) as [[w1 es1] [[]|]]; simpl in *; [|done].
  specialize (IH w1 Hi).
  destruct (each _check js w1) as [[w2 es2] r2]; simpl in *. congruence.
Qed.

(** In every state of a run, the document becoming ready leaves an app of
    a class with [autoStart] false as it is. *)
Lemma document_ready_skips_manual_apps acts i a :
  _apps (fst (run acts)) !! i = Some a → autoStart a = false →
  _apps (fst (fst (document_ready (fst (run acts))))) !! i = Some a.
Proof.
  intros Hi Hauto. pose proof (run_Inv acts) as HI.
  destruct (run acts) as [w l]; simpl in *.
  assert (i ∉ on_document_ready w) as Hnot.
  { intros Hin. destruct (inv_listeners _ _ HI i Hin) as (b & Hb & Hb').
    congruence. }
  unfold document_ready, bind, modify.
  change (get (set_isDocReady true w))
    with (set_isDocReady true w, @nil effect, Ok (set_isDocReady true w)).
  simpl.
  pose proof (each_check_other i (on_document_ready w) (set_isDocReady true w) Hnot)
    as H.
  destruct (each _check _ _) as [[w1 es1] r1]; simpl in *. congruence.
Qed.

(** Constructing an app of such a class performs no gating check, even
    when the document is ready. *)
Lemma new_manual_app_is_not_checked e w :
  snd (fst (new_App false e w)) = [] ∧
  has_initialized (fst (fst (new_App false e w))) (length (_apps w)) = false.
Proof.
  unfold new_App, bind, modify.
  change (get w) with (w, @nil effect, Ok w). simpl.
  unfold _bindAutoStart, _bindAutoEnd, bind, on_app, get; simpl.
  rewrite !lookup_app_r by lia. rewrite Nat.sub_diag. simpl.
  rewrite list_insert_id by (rewrite lookup_app_r by lia; by rewrite Nat.sub_diag).
  simpl. rewrite !lookup_app_r by lia. rewrite Nat.sub_diag. simpl.
  unfold has_initialized.
  destruct e; simpl; rewrite ?list_insert_id;
    rewrite ?lookup_app_r by lia; rewrite ?Nat.sub_diag; done.
Qed.

End ManualApps.

(** C5.  The failing run: the base app, then an app of a class with
    [autoStart] false.  The document becomes ready: the second app is not
    initialized.  A [lock] and the matching [unlock] follow: the broadcast
    of [unlock] checks every app of the registry, and the second app, never
    ignited, is initialized. *)
Theorem C5_unlock_initializes_manual_app :
  has_initialized
    (fst (run (boot ++ [NewApp false true; DocumentReady]))) 1 = false ∧
  has_initialized
    (fst (run (boot ++ [NewApp false true; DocumentReady; Lock; Unlock]))) 1 = true ∧
  (autoStart <$> _apps
     (fst (run (boot ++ [NewApp false true; DocumentReady; Lock; Unlock]))) !! 1)
    = Some false ∧
  (_isIgnited <$> _apps
     (fst (run (boot ++ [NewApp false true; DocumentReady; Lock; Unlock]))) !! 1)
    = Some false ∧
  initialize_runs 1
    (snd (run (boot ++ [NewApp false true; DocumentReady; Lock; Unlock]))) = 1.
Proof. vm_compute. repeat split; reflexivity. Qed.

Section Unload.

Variable i : nat.

Lemma this_unload_first_run a :
  _hasInitialized a = true → _unload_ran a = false →
  this_unload i a = first_unload i a.
Proof.
  intros Hinit Hran. rewrite this_unload_first by done.
  unfold _unload, first_unload, bind, get, emit, trigger_plain; simpl.
  rewrite Hinit; simpl.
  destruct (endCall a) as [cb| | |cb]; simpl; try done;
    unfold bind, get, emit, modify; simpl;
    by destruct (snd (cb_run cb (config a))).
Qed.

Lemma smother_silent a : smother i silent a = (a, [], Ok i).
Proof.
  unfold smother, bind, get; simpl. by destruct (_hasInitialized a).
Qed.

Lemma smother_not_initialized a opts :
  _hasInitialized a = false → smother i opts a = (a, [], Ok i).
Proof. intros H. unfold smother, bind, get; simpl. by rewrite H. Qed.

Lemma smother_loud a opts :
  _hasInitialized a = true →
  isSilent (default {| isSilent := false |} opts) = false →
  smother i opts a =
    (fst (fst (this_unload i a)), snd (fst (this_unload i a)),
     match snd (this_unload i a) with Ok _ => Ok i | Throw => Throw end).
Proof.
  intros Hinit Hopts. unfold smother, bind, get; simpl. rewrite Hinit, Hopts.
  simpl. destruct (this_unload i a) as [[a' es] [[]|]]; simpl; [|done].
  by rewrite app_nil_r.
Qed.

End Unload.

(** The cases of [smother].  On an instance that never initialized it
    changes nothing, logs nothing and returns the instance.  With
    [isSilent] true it does so on every instance.  Without [isSilent], on
    an initialized instance whose one-shot [_unload] has not been called
    before, it enters the transition, invokes a registered end function
    with the instance and [config], then, the function returning normally,
    emits ['end'] and returns the instance; with no end function registered
    it only emits ['end'].  When the one-shot has been called before, it
    changes and logs nothing. *)
Lemma smother_cases (i : nat) (a : App) (opts : option SmotherOpts) :
  (_hasInitialized a = false → smother i opts a = (a, [], Ok i)) ∧
  smother i silent a = (a, [], Ok i) ∧
  (_hasInitialized a = true →
   isSilent (default {| isSilent := false |} opts) = false →
   (_unload_ran a = false →
      (∀ cb, endCall a = JFun cb → snd (cb_run cb (config a)) = Returns →
         smother i opts a =
           (set_config (fst (cb_run cb (config a))) (set_unload_ran true a),
            [Enter i Unload;
             Call i PEnd (cb_name cb) [AApp i; AConfig (config a)];
             Trigger i "end" None],
            Ok i)) ∧
      (endCall a = JFalsy →
         smother i opts a =
           (set_unload_ran true a, [Enter i Unload; Trigger i "end" None], Ok i))) ∧
   (_unload_ran a = true → smother i opts a = (a, [], Ok i))).
Proof.
  split; [apply smother_not_initialized|]. split; [apply smother_silent|].
  intros Hinit Hopts. rewrite (smother_loud _ _ _ Hinit Hopts). split.
  - intros Hran. rewrite (this_unload_first_run _ _ Hinit Hran).
    unfold first_unload. split.
    + intros cb -> Hret. simpl. by rewrite Hret.
    + by intros ->.
  - intros Hran. by rewrite (this_unload_ran _ _ Hran).
Qed.

(** C6.  The failing run.  The base app registers an end function; a
    window-unload event arrives before the document is ready; the document
    becomes ready and the app initializes.  The app is initialized, its end
    function is registered and its unload transition has never been
    entered, yet [smother()] changes nothing and logs nothing: the end
    function is not invoked and ['end'] is not emitted, then or at any
    later point of the run.  In the same run without the early
    window-unload event, [smother()] invokes the end function with the
    instance and [config]. *)
Theorem C6_smother_after_early_window_unload (f : callback) (more : list action) :
  let acts := boot ++ [End 0 (JFun f); WindowUnload; DocumentReady] in
  has_initialized (fst (run acts)) 0 = true ∧
  (endCall <$> _apps (fst (run acts)) !! 0) = Some (JFun f) ∧
  unload_runs 0 (snd (run acts)) = 0 ∧
  perform (Smother 0 None) (fst (run acts)) = (fst (run acts), [], Ok tt) ∧
  end_calls 0 (snd (run ((acts ++ [Smother 0 None]) ++ more))) = 0 ∧
  end_events 0 (snd (run ((acts ++ [Smother 0 None]) ++ more))) = 0 ∧
  firstn 2 (snd (fst (perform (Smother 0 None)
      (fst (run (boot ++ [End 0 (JFun f); DocumentReady]))))))
    = [Enter 0 Unload; Call 0 PEnd (cb_name f) [AApp 0; AConfig ∅]].
Proof.
  intros acts.
  assert (∃ a, _apps (fst (run (acts ++ [Smother 0 None]))) !! 0 = Some a ∧
               _unload_ran a = true) as (a & Ha & Hran)
    by (vm_compute; eexists; split; reflexivity).
  assert (unload_runs 0 (snd (run (acts ++ [Smother 0 None]))) = 0) as Hzero
    by (vm_compute; reflexivity).
  pose proof (spent_one_shot _ more 0 a Ha Hran Hzero) as (S1 & S2 & S3).
  clear Ha Hran Hzero. subst acts. destruct f as [name body].
  repeat split; try assumption; try (vm_compute; reflexivity).
  vm_compute. by destruct (body (GMap GEmpty)) as [c []].
Qed.

Section SilentSmother.

Lemma perform_smother_silent i w a :
  _apps w !! i = Some a →
  perform (Smother i silent) w = (w, [], Ok tt).
Proof.
  intros Hi. simpl. unfold discard, bind.
  by rewrite (on_app_unchanged i _ w a [] (Ok i) Hi (smother_silent i a)).
Qed.

Lemma perform_smother_fires i w a cb :
  _apps w !! i = Some a →
  _hasInitialized a = true → _unload_ran a = false →
  endCall a = JFun cb → snd (cb_run cb (config a)) = Returns →
  perform (Smother i None) w =
    (set_apps (<[i:=set_config (fst (cb_run cb (config a)))
                      (set_unload_ran true a)]> (_apps w)) w,
     [Enter i Unload; Call i PEnd (cb_name cb) [AApp i; AConfig (config a)];
      Trigger i "end" None],
     Ok tt).
Proof.
  intros Hi Hinit Hran Hend Hret. simpl. unfold discard, bind, on_app.
  rewrite Hi, (smother_loud i a None Hinit eq_refl).
  rewrite (this_unload_first_run _ _ Hinit Hran).
  unfold first_unload. rewrite Hend, Hret. done.
Qed.

Lemma count_view_ge P i l1 l2 l3 :
  count P (view i l2) ≤ count P (view i ((l1 ++ l2) ++ l3)).
Proof. rewrite !view_app, !count_app. lia. Qed.

End SilentSmother.

(** A silent smother of an initialized app changes nothing, not even
    the one-shot wrappers, and logs nothing: the run goes on as if it had
    not been called.  If the one-shot [_unload] of the app has not been
    called before, a [smother()] after the silent one invokes the
    registered end function and, the function returning normally, emits
    ['end']; the window-unload listener of the app, called in its place,
    does the same; and however the run goes on, the end function has been
    invoked and ['end'] emitted exactly once. *)
Lemma silent_smother_keeps_one_shot (acts more : list action) (i : nat)
    (a : App) (cb : callback) :
  _apps (fst (run acts)) !! i = Some a →
  _hasInitialized a = true →
  perform (Smother i silent) (fst (run acts)) = (fst (run acts), [], Ok tt) ∧
  run (acts ++ [Smother i silent]) = run acts ∧
  (_unload_ran a = false → endCall a = JFun cb →
   snd (cb_run cb (config a)) = Returns →
     snd (run (acts ++ [Smother i silent; Smother i None]))
       = snd (run acts) ++
         [Enter i Unload; Call i PEnd (cb_name cb) [AApp i; AConfig (config a)];
          Trigger i "end" None] ∧
     this_unload i a =
       (set_config (fst (cb_run cb (config a))) (set_unload_ran true a),
        [Enter i Unload; Call i PEnd (cb_name cb) [AApp i; AConfig (config a)];
         Trigger i "end" None],
        Ok tt) ∧
     unload_runs i (snd (run (acts ++ [Smother i silent; Smother i None] ++ more))) = 1 ∧
     end_calls i (snd (run (acts ++ [Smother i silent; Smother i None] ++ more))) = 1 ∧
     end_events i (snd (run (acts ++ [Smother i silent; Smother i None] ++ more))) = 1).
Proof.
  intros Hi Hinit.
  assert (run (acts ++ [Smother i silent]) = run acts) as Hsilent.
  { rewrite run_snoc. unfold step.
    rewrite (perform_smother_silent _ _ _ Hi), app_nil_r.
    by destruct (run acts). }
  split; [by apply (perform_smother_silent _ _ a)|]. split; [done|].
  intros Hran Hend Hret.
  assert (snd (run (acts ++ [Smother i silent; Smother i None]))
       = snd (run acts) ++
         [Enter i Unload; Call i PEnd (cb_name cb) [AApp i; AConfig (config a)];
          Trigger i "end" None]) as Hfired.
  { change [Smother i silent; Smother i None]
      with ([Smother i silent] ++ [Smother i None]).
    rewrite app_assoc, run_snoc, Hsilent. unfold step.
    by rewrite (perform_smother_fires _ _ _ _ Hi Hinit Hran Hend Hret). }
  split; [done|]. split.
  { rewrite (this_unload_first_run _ _ Hinit Hran).
    unfold first_unload. by rewrite Hend, Hret. }
  destruct (unload_bounds (acts ++ [Smother i silent; Smother i None] ++ more) i)
    as (B1 & B2 & B3).
  unfold unload_runs, end_calls, end_events in *.
  rewrite app_assoc, run_app in B1, B2, B3 |- *.
  destruct (run (acts ++ [Smother i silent; Smother i None])) as [w2 l2] eqn:E2.
  simpl in Hfired. subst l2.
  destruct (run_from_step more w2
    (snd (run acts) ++
     [Enter i Unload; Call i PEnd (cb_name cb) [AApp i; AConfig (config a)];
      Trigger i "end" None])) as (es3 & Hl & _).
  rewrite Hl in *.
  set (fired := [Enter i Unload;
                 Call i PEnd (cb_name cb) [AApp i; AConfig (config a)];
                 Trigger i "end" None]) in *.
  assert (view i fired = fired) as Hview
    by (apply view_own; repeat constructor).
  pose proof (count_view_ge is_enter_unload i (snd (run acts)) fired es3) as L1.
  pose proof (count_view_ge is_end_call i (snd (run acts)) fired es3) as L2.
  pose proof (count_view_ge (is_event "end") i (snd (run acts)) fired es3) as L3.
  rewrite Hview in L1, L2, L3. simpl in L1, L2, L3. lia.
Qed.

(** C9.  The failing run.  The base app registers an end function; a
    window-unload event arrives before the app has initialized; the app is
    ignited and initializes.  A silent smother of this initialized app
    changes nothing, so it is not what consumes the one-shot; but neither
    the [smother()] after it nor the window-unload event invokes the end
    function or emits ['end'], and nothing that follows does.  In the same
    run without the early window-unload event, the [smother()] after the
    silent one invokes the end function, once. *)
Theorem C9_silent_smother_after_early_window_unload (f : callback)
    (more : list action) :
  let acts := boot ++ [End 0 (JFun f); WindowUnload; Ignite 0] in
  has_initialized (fst (run acts)) 0 = true ∧
  (autoEnd <$> _apps (fst (run acts)) !! 0) = Some true ∧
  unload_runs 0 (snd (run acts)) = 0 ∧
  run (acts ++ [Smother 0 silent]) = run acts ∧
  snd (run (acts ++ [Smother 0 silent; Smother 0 None; WindowUnload]))
    = snd (run acts) ∧
  end_calls 0
    (snd (run ((acts ++ [Smother 0 silent; Smother 0 None; WindowUnload]) ++ more)))
    = 0 ∧
  end_events 0
    (snd (run ((acts ++ [Smother 0 silent; Smother 0 None; WindowUnload]) ++ more)))
    = 0 ∧
  end_calls 0
    (snd (run (boot ++ [End 0 (JFun f); Ignite 0; Smother 0 silent;
                        Smother 0 None; WindowUnload]))) = 1.
Proof.
  intros acts.
  assert (∃ a, _apps (fst (run (acts ++ [Smother 0 silent; Smother 0 None;
                                          WindowUnload]))) !! 0 = Some a ∧
               _unload_ran a = true) as (a & Ha & Hran)
    by (vm_compute; eexists; split; reflexivity).
  assert (unload_runs 0 (snd (run (acts ++ [Smother 0 silent; Smother 0 None;
                                            WindowUnload]))) = 0) as Hzero
    by (vm_compute; reflexivity).
  pose proof (spent_one_shot _ more 0 a Ha Hran Hzero) as (S1 & S2 & S3).
  clear Ha Hran Hzero. subst acts. destruct f as [name body].
  repeat split; try assumption; try (vm_compute; reflexivity).
  vm_compute. by destruct (body (GMap GEmpty)) as [c []].
Qed.

(** * Further properties of the module *)

Section Registry.

Lemma len_ret {A} (x : A) : preserves same_length (ret x).
Proof. by intros w w' es r [= <- <- <-]. Qed.

Lemma len_get : preserves same_length (@get World).
Proof. by intros w w' es r [= <- <- <-]. Qed.

Lemma len_bind {A B} (m : Prog World A) (k : A → Prog World B) :
  preserves same_length m → (∀ x, preserves same_length (k x)) →
  preserves same_length (bind m k).
Proof.
  intros Hm Hk w w' es r. unfold bind.
  destruct (m w) as [[w1 es1] [x|]] eqn:E1.
  - destruct (k x w1) as [[w2 es2] r2] eqn:E2. intros [= <- <- <-].
    unfold same_length. rewrite (Hk _ _ _ _ _ E2). by eapply Hm.
  - intros [= <- <- <-]. by eapply Hm.
Qed.

Lemma len_each {X} (f : X → Prog World unit) xs :
  (∀ x, preserves same_length (f x)) → preserves same_length (each f xs).
Proof.
  intros Hf. induction xs as [|x xs IH]; simpl.
  - apply len_ret.
  - apply len_bind; [apply Hf|by intros _].
Qed.

Lemma len_on_app {A} i (m : Prog App A) : preserves same_length (on_app i m).
Proof.
  intros w w' es r. unfold on_app. destruct (_apps w !! i) as [a|].
  - destruct (m a) as [[a' es'] r']. intros [= <- <- <-].
    unfold same_length; simpl. apply length_insert.
  - by intros [= <- <- <-].
Qed.

Lemma len_modify (f : World → World) :
  (∀ w, _apps (f w) = _apps w) → preserves same_length (modify f).
Proof. intros Hf w w' es r [= <- <- <-]. unfold same_length. by rewrite Hf. Qed.

End Registry.

Ltac len :=
  repeat first
    [ apply len_ret | apply len_get
    | apply len_bind; [|intros ?]
    | apply len_each; intros ?
    | apply len_on_app
    | apply len_modify; done
    | match goal with |- preserves _ (if ?b then _ else _) => destruct b end ].

#[global] Instance same_listeners_rel : StateRel same_listeners.
Proof.
  split; unfold same_listeners.
  - done.
  - intros w1 w2 w3 [? ?] [? ?]. split; congruence.
  - done.
Qed.

Section Registry2.

Lemma _check_same_length i : preserves same_length (_check i).
Proof. unfold _check. len. Qed.

Lemma other_actions_same_length act :
  constructions [act] = 0 → preserves same_length (perform act).
Proof.
  destruct act; try done; intros _; simpl;
    unfold discard, document_ready, window_beforeunload, ignite, lock, unlock,
      _runChecks; len.
Qed.

Lemma _check_same_listeners i : preserves same_listeners (_check i).
Proof. unfold _check. pres. Qed.

Lemma other_actions_same_listeners act :
  constructions [act] = 0 → preserves same_listeners (perform act).
Proof.
  destruct act; try done; intros _; simpl;
    unfold discard, document_ready, window_beforeunload, ignite, lock, unlock,
      _runChecks; pres.
Qed.

End Registry2.

Section Constructor.

Lemma lookup_last {A} (l : list A) (x : A) : (l ++ [x]) !! length l = Some x.
Proof. by apply list_lookup_middle. Qed.

Lemma insert_last {A} (l : list A) (x y : A) :
  <[length l:=y]> (l ++ [x]) = l ++ [y].
Proof.
  rewrite insert_app_r_alt by lia. by rewrite Nat.sub_diag.
Qed.

Lemma on_app_last {A} (m : Prog App A) l x d z r u :
  on_app (length l) m (mkWorld (l ++ [x]) d z r u) =
    (mkWorld (l ++ [fst (fst (m x))]) d z r u, snd (fst (m x)), snd (m x)).
Proof.
  unfold on_app; simpl. rewrite lookup_last.
  destruct (m x) as [[x' es] res]; simpl. unfold set_apps; simpl.
  by rewrite insert_last.
Qed.

Lemma this_initialize_fresh n s e :
  this_initialize n (fresh_app s e) = (started_app s e, bare_start_log n, Ok tt).
Proof. reflexivity. Qed.

Lemma _check_last n l s e d z r u :
  n = length l →
  _check n (mkWorld (l ++ [fresh_app s e]) d z r u) =
    if negb (0 <? z)%Z && d
    then (mkWorld (l ++ [started_app s e]) d z r u, bare_start_log n, Ok tt)
    else (mkWorld (l ++ [fresh_app s e]) d z r u, [], Ok tt).
Proof.
  intros ->. unfold _check, bind.
  change (get ?w) with (w, @nil effect, Ok w). simpl.
  destruct (0 <? z)%Z; simpl; [done|].
  rewrite (on_app_last get). simpl.
  destruct d; simpl; [|done].
  rewrite (on_app_last (this_initialize (length l))).
  by rewrite this_initialize_fresh.
Qed.

(** The constructor, computed: what it appends to the registry, whom it
    subscribes, what it logs and what it returns. *)
Lemma new_App_result s e w :
  new_App s e w =
    (mkWorld
       (_apps w ++ [if starts_at_construction s w
                    then started_app s e else fresh_app s e])
       (_isDocReady w) (_lockBarrier w)
       (if s && negb (_isDocReady w)
        then on_document_ready w ++ [length (_apps w)] else on_document_ready w)
       (if e then on_window_unload w ++ [length (_apps w)] else on_window_unload w),
     if starts_at_construction s w then bare_start_log (length (_apps w)) else [],
     Ok (length (_apps w))).
Proof.
  destruct w as [l d z r u]. unfold starts_at_construction; simpl.
  unfold new_App, bind, modify.
  change (get ?w) with (w, @nil effect, Ok w). simpl.
  unfold set_apps; simpl. fold (fresh_app s e).
  unfold _bindAutoStart, bind. rewrite (on_app_last get). simpl.
  change (get ?w) with (w, @nil effect, Ok w). simpl.
  destruct s; simpl.
  - destruct d; simpl.
    + rewrite (_check_last (length l) l true e true z r u eq_refl).
      destruct (0 <? z)%Z; simpl;
        unfold _bindAutoEnd, bind; rewrite (on_app_last get); simpl;
        destruct e; reflexivity.
    + unfold modify; simpl. unfold set_on_document_ready; simpl.
      unfold _bindAutoEnd, bind. rewrite (on_app_last get). simpl.
      destruct e; reflexivity.
  - unfold _bindAutoEnd, bind. rewrite (on_app_last get). simpl.
    destruct e; reflexivity.
Qed.

End Constructor.

Section RegistryGrowth.

Lemma perform_length act w :
  length (_apps (fst (fst (perform act w))))
    = length (_apps w) + constructions [act].
Proof.
  destruct (constructions [act]) eqn:Hc.
  - destruct (perform act w) as [[w' es] r] eqn:E. simpl.
    apply other_actions_same_length in E; [|done]. rewrite E. lia.
  - destruct act; try done. simpl. unfold discard, bind.
    rewrite new_App_result. simpl. rewrite length_app. simpl in *. lia.
Qed.

Lemma constructions_cons act acts :
  constructions (act :: acts) = constructions [act] + constructions acts.
Proof. by destruct act. Qed.

Lemma run_from_length acts : ∀ st,
  length (_apps (fst (run_from st acts)))
    = length (_apps (fst st)) + constructions acts.
Proof.
  induction acts as [|act acts IH]; intros [w l]; [simpl; lia|].
  rewrite (constructions_cons act acts).
  change (run_from (w, l) (act :: acts)) with (run_from (step (w, l) act) acts).
  rewrite IH. unfold step. cbn [fst snd].
  pose proof (perform_length act w) as H.
  destruct (perform act w) as [[w' es] r]. cbn [fst snd] in *. lia.
Qed.

End RegistryGrowth.

(** X5. The registry only grows, and only by construction: after any run
    it holds as many apps as there were constructor calls.  The
    constructor returns the next free index and leaves every app already
    registered as it is, and an app once registered is at its index for
    the rest of the run. *)
Theorem X5_registry_grows_by_construction :
  (∀ acts, length (_apps (fst (run acts))) = constructions acts) ∧
  (∀ s e w,
     snd (new_App s e w) = Ok (length (_apps w)) ∧
     ∀ j, j < length (_apps w) →
       _apps (fst (fst (new_App s e w))) !! j = _apps w !! j) ∧
  (∀ acts more i, i < length (_apps (fst (run acts))) →
     i < length (_apps (fst (run (acts ++ more))))).
Proof.
  split; [|split].
  - intros acts. unfold run. by rewrite run_from_length.
  - intros s e w. rewrite new_App_result. simpl. split; [done|].
    intros j Hj. by apply lookup_app_l.
  - intros acts more i Hi. rewrite run_app.
    destruct (run acts) as [w l]. rewrite run_from_length. simpl in *. lia.
Qed.

(** X6. An app of a class with [autoStart] that is constructed when the
    document is ready and the lock counter is not positive is initialized
    inside the constructor, with nothing registered yet: the default no-op
    start runs.  Whatever is handed to [setup] or [start] afterwards is
    never called: in every continuation of the run the app has no setup
    call and exactly that one start call in the log, and its
    initialization has run once. *)
Theorem X6_constructed_when_ready_starts_bare (acts more : list action)
    (e : bool) :
  _isDocReady (fst (run acts)) = true →
  (_lockBarrier (fst (run acts)) ≤ 0)%Z →
  snd (run (acts ++ [NewApp true e]))
    = snd (run acts) ++ bare_start_log (length (_apps (fst (run acts)))) ∧
  has_initialized (fst (run (acts ++ [NewApp true e])))
    (length (_apps (fst (run acts)))) = true ∧
  setup_calls (length (_apps (fst (run acts))))
    (snd (run (acts ++ NewApp true e :: more))) = 0 ∧
  start_calls (length (_apps (fst (run acts))))
    (snd (run (acts ++ NewApp true e :: more))) = 1 ∧
  initialize_runs (length (_apps (fst (run acts))))
    (snd (run (acts ++ NewApp true e :: more))) = 1.
Proof.
  intros Hready Hlock.
  assert (run (acts ++ [NewApp true e]) =
          (fst (fst (new_App true e (fst (run acts)))),
           snd (run acts) ++ bare_start_log (length (_apps (fst (run acts))))))
    as Hnew.
  { rewrite run_snoc. unfold step. simpl. unfold discard, bind.
    rewrite new_App_result. unfold starts_at_construction.
    rewrite Hready, (proj2 (Z.ltb_ge _ _) Hlock). simpl.
    reflexivity. }
  assert (has_initialized (fst (run (acts ++ [NewApp true e])))
            (length (_apps (fst (run acts)))) = true) as Hinit.
  { rewrite Hnew, new_App_result. unfold starts_at_construction.
    rewrite Hready, (proj2 (Z.ltb_ge _ _) Hlock). simpl.
    unfold has_initialized; simpl. by rewrite lookup_last. }
  split; [by rewrite Hnew|]. split; [done|].
  destruct (after_initialized (acts ++ [NewApp true e]) more _ Hinit)
    as (es & Hl & Hes & _).
  rewrite <- app_assoc in Hl. simpl in Hl. rewrite Hl, Hnew. simpl.
  pose proof (inv_none _ _ (run_Inv acts) (length (_apps (fst (run acts))))
                (lookup_ge_None_2 (_apps (fst (run acts))) _ (Nat.le_refl _)))
    as Hnone.
  assert (view (length (_apps (fst (run acts))))
            (bare_start_log (length (_apps (fst (run acts)))))
          = bare_start_log (length (_apps (fst (run acts))))) as Hview
    by (apply view_own; repeat constructor).
  unfold setup_calls, start_calls, initialize_runs.
  rewrite !view_app, Hnone, Hview, !count_app. simpl.
  rewrite (count_implied is_initialize_effect is_setup_call _
             ltac:(by intros [? ?|? ? ?|? [] ? ?|?]) Hes).
  rewrite (count_implied is_initialize_effect is_start_call _
             start_call_is_initialize_effect Hes).
  rewrite (count_implied is_initialize_effect is_enter_initialize _
             ltac:(by intros [? []|? ? ?|? ? ? ?|?]) Hes).
  done.
Qed.

Lemma X6_witness :
  (_isDocReady (fst (run (boot ++ [DocumentReady]))) = true ∧
   (_lockBarrier (fst (run (boot ++ [DocumentReady]))) ≤ 0)%Z) ∧
  setup_calls 1
    (snd (run ((boot ++ [DocumentReady]) ++
               NewApp true true :: [Setup 1 (JFun sample_setup1); Ignite 1])))
    = 0.
Proof.
  assert (_isDocReady (fst (run (boot ++ [DocumentReady]))) = true) as H1
    by (vm_compute; reflexivity).
  assert ((_lockBarrier (fst (run (boot ++ [DocumentReady]))) ≤ 0)%Z) as H2
    by (vm_compute; discriminate).
  split; [by split|].
  exact (proj1 (proj2 (proj2
    (X6_constructed_when_ready_starts_bare (boot ++ [DocumentReady])
       [Setup 1 (JFun sample_setup1); Ignite 1] true H1 H2)))).
Defined.

Lemma X5_witness :
  0 < length (_apps (fst (run boot))) ∧
  0 < length (_apps (fst (run (boot ++ [DocumentReady; NewApp false false])))).
Proof.
  assert (0 < length (_apps (fst (run boot)))) as H by (vm_compute; lia).
  split; [exact H|].
  exact (proj2 (proj2 X5_registry_grows_by_construction) boot
           [DocumentReady; NewApp false false] 0 H).
Defined.

Section Configure.

Lemma perform_on_app {A} i (m : Prog App A) w a a' es x :
  _apps w !! i = Some a → m a = (a', es, Ok x) →
  discard (on_app i m) w = (set_apps (<[i:=a']> (_apps w)) w, es, Ok tt).
Proof.
  intros Hi Hm. unfold discard, bind, on_app. rewrite Hi, Hm. simpl.
  by rewrite app_nil_r.
Qed.

End Configure.

Section ConfigObject.

(** Whether [c[k] = v] makes or overwrites an own property. *)
Lemma assign_lookup k v c k' :
  assign k v c !! k' =
    if String.eqb k "__proto__" && negb (bool_decide (is_Some (c !! k)))
    then c !! k'
    else if String.eqb k' k then Some v else c !! k'.
Proof.
  unfold assign.
  destruct (String.eqb k "__proto__" && negb (bool_decide (is_Some (c !! k))));
    [done|].
  destruct (String.eqb_spec k' k) as [->|Hne].
  - apply lookup_insert_eq.
  - by apply lookup_insert_ne.
Qed.

Lemma assign_plain k v c :
  k ≠ "__proto__" → assign k v c = <[k:=v]> c.
Proof.
  intros Hk. unfold assign. by rewrite (proj2 (String.eqb_neq _ _) Hk).
Qed.

Lemma assign_proto v c :
  c !! "__proto__" = None → assign "__proto__" v c = c.
Proof.
  intros Hc. unfold assign. by rewrite Hc.
Qed.

(** What [_.extend] leaves at each key, whatever the order of its loop. *)
Lemma extend_lookup obj c k' :
  extend obj c !! k' =
    match c !! k' with
    | None =>
        if String.eqb k' "__proto__" then None
        else obj !! k'
    | Some y => match obj !! k' with Some x => Some x | None => Some y end
    end.
Proof.
  unfold extend. revert k'.
  apply (map_fold_weak_ind (λ r m, ∀ k', r !! k' =
    match c !! k' with
    | None => if String.eqb k' "__proto__" then None else m !! k'
    | Some y => match m !! k' with Some x => Some x | None => Some y end
    end)).
  - intros k'. rewrite lookup_empty.
    destruct (c !! k'); [done|]. by destruct (String.eqb k' "__proto__").
  - intros k x m r Hk IH k'. rewrite assign_lookup.
    destruct (String.eqb_spec k "__proto__") as [->|Hproto]; simpl.
    + pose proof (IH "__proto__") as Hp. rewrite Hk in Hp. simpl in Hp.
      destruct (c !! "__proto__") as [y|] eqn:Hc.
      * rewrite Hp. simpl.
        destruct (String.eqb_spec k' "__proto__") as [->|Hne].
        { by rewrite Hc, lookup_insert_eq. }
        rewrite IH, lookup_insert_ne by done.
        by rewrite (proj2 (String.eqb_neq _ _) Hne).
      * rewrite Hp. simpl. rewrite IH.
        destruct (String.eqb_spec k' "__proto__") as [->|Hne].
        { by rewrite Hc. }
        by rewrite lookup_insert_ne.
    + destruct (String.eqb_spec k' k) as [->|Hne].
      * rewrite lookup_insert_eq, (proj2 (String.eqb_neq _ _) Hproto).
        by destruct (c !! k).
      * rewrite IH, lookup_insert_ne by done. done.
Qed.

End ConfigObject.

(** X1. [configure] with a string key assigns that key of [config]: the
    key then reads as the value and every other key is as it was.  The
    key ["__proto__"] is the exception: unless [config] has an own property
    of that name, it names the inherited accessor, and the call changes
    nothing.  With an object, every property of the object is assigned in
    the same way: afterwards a key reads as the object has it, or as it was
    where the object does not have it, and ["__proto__"] is not created;
    an object of one property does what the call with that key and value
    does.  Either way the call changes nothing but [config] of its app,
    logs nothing and returns the app. *)
Theorem X1_configure (w : World) (i : nat) (a : App) (k : string) (v u : Z)
    (obj : Config) :
  _apps w !! i = Some a →
  (∃ c, perform (Configure i (inl k) v) w
          = (set_apps (<[i:=set_config c a]> (_apps w)) w, [], Ok tt) ∧
        on_app i (configure i (inl k) v) w
          = (set_apps (<[i:=set_config c a]> (_apps w)) w, [], Ok i) ∧
        (k ≠ "__proto__" → c !! k = Some v) ∧
        (k = "__proto__" → config a !! k = None → c = config a) ∧
        (k = "__proto__" → is_Some (config a !! k) → c !! k = Some v) ∧
        ∀ k', k' ≠ k → c !! k' = config a !! k') ∧
  (∃ c, perform (Configure i (inr obj) u) w
          = (set_apps (<[i:=set_config c a]> (_apps w)) w, [], Ok tt) ∧
        ∀ k', c !! k' =
                match config a !! k' with
                | None => if String.eqb k' "__proto__" then None else obj !! k'
                | Some y => match obj !! k' with
                            | Some x => Some x
                            | None => Some y
                            end
                end) ∧
  perform (Configure i (inr {[k:=v]}) u) w = perform (Configure i (inl k) v) w.
Proof.
  intros Hi. split; [|split].
  - exists (assign k v (config a)). split; [|split; [|split; [|split; [|split]]]].
    + simpl. by apply (perform_on_app i _ w a _ [] i Hi).
    + unfold on_app. by rewrite Hi.
    + intros Hk. rewrite assign_plain by done. apply lookup_insert_eq.
    + intros -> Hc. by apply assign_proto.
    + intros -> Hc. unfold assign. simpl.
      rewrite bool_decide_eq_true_2 by done. apply lookup_insert_eq.
    + intros k' Hk. rewrite assign_lookup.
      rewrite (proj2 (String.eqb_neq _ _) Hk).
      by destruct (String.eqb k _ && _).
  - exists (extend obj (config a)). split.
    + simpl. by apply (perform_on_app i _ w a _ [] i Hi).
    + apply extend_lookup.
  - simpl. unfold discard, bind, on_app. rewrite Hi. simpl.
    unfold extend. by rewrite map_fold_singleton.
Qed.

Lemma X1_witness :
  _apps (fst (run boot)) !! 0 = Some (fresh_app true true) ∧
  (∃ c, perform (Configure 0 (inl "a") 1%Z) (fst (run boot))
         = (set_apps (<[0:=set_config c (fresh_app true true)]>
                        (_apps (fst (run boot)))) (fst (run boot)), [], Ok tt) ∧
        c !! "a" = Some 1%Z) ∧
  (∃ c, perform (Configure 0 (inl "__proto__") 1%Z) (fst (run boot))
         = (set_apps (<[0:=set_config c (fresh_app true true)]>
                        (_apps (fst (run boot)))) (fst (run boot)), [], Ok tt) ∧
        c = ∅).
Proof.
  assert (_apps (fst (run boot)) !! 0 = Some (fresh_app true true)) as H
    by (vm_compute; reflexivity).
  split; [exact H|]. split.
  - destruct (X1_configure (fst (run boot)) 0 _ "a" 1%Z 0%Z ∅ H)
      as [(c & Hp & _ & Hc & _) _].
    exists c. split; [exact Hp|]. by apply Hc.
  - destruct (X1_configure (fst (run boot)) 0 _ "__proto__" 1%Z 0%Z ∅ H)
      as [(c & Hp & _ & _ & Hc & _) _].
    exists c. split; [exact Hp|]. by apply Hc.
Defined.

Section LateSetup.

Lemma perform_setup i f w a :
  _apps w !! i = Some a →
  perform (Setup i f) w =
    (set_apps (<[i:=set_setupCalls (setupCalls a ++ [f]) a]> (_apps w)) w,
     if isFunction f then [] else [ConsoleError "Setup must have a function."],
     Ok tt).
Proof.
  intros Hi. simpl. unfold discard, bind, on_app. rewrite Hi.
  unfold setup, bind, modify, emit, ret. by destruct (isFunction f).
Qed.

Lemma setup_call_is_initialize_effect e :
  is_setup_call e = true → is_initialize_effect e = true.
Proof. by destruct e as [? ?|? ? ?|? [] ? ?|?]. Qed.

End LateSetup.

(** X3. A value handed to [setup] after the app has initialized is
    appended to the queue, but the queue is never drained again: in every
    continuation of the run no setup call of the app is logged any more. *)
Theorem X3_late_setup_is_never_called (acts more : list action) (i : nat)
    (f : jsval) :
  has_initialized (fst (run acts)) i = true →
  (∃ a a', _apps (fst (run acts)) !! i = Some a ∧
           _apps (fst (run (acts ++ [Setup i f]))) !! i = Some a' ∧
           setupCalls a' = setupCalls a ++ [f]) ∧
  setup_calls i (snd (run (acts ++ Setup i f :: more)))
    = setup_calls i (snd (run acts)).
Proof.
  intros Hinit.
  destruct (after_initialized acts (Setup i f :: more) i Hinit)
    as (es & Hl & Hes & _).
  rewrite Hl, run_snoc.
  destruct (run acts) as [w l]; simpl in *.
  unfold has_initialized in Hinit.
  destruct (_apps w !! i) as [a|] eqn:Hi; [|done].
  unfold step; cbn [fst snd]. rewrite (perform_setup _ _ _ _ Hi). simpl.
  split.
  - exists a, (set_setupCalls (setupCalls a ++ [f]) a). split; [done|].
    split; [|done]. apply list_lookup_insert_eq. by eapply lookup_lt_Some.
  - unfold setup_calls. rewrite view_app, count_app.
    rewrite (count_implied is_initialize_effect is_setup_call _
               setup_call_is_initialize_effect Hes).
    lia.
Qed.

Lemma X3_witness :
  has_initialized (fst (run (boot ++ [DocumentReady]))) 0 = true ∧
  setup_calls 0
    (snd (run ((boot ++ [DocumentReady]) ++
               Setup 0 (JFun sample_setup1) :: [Ignite 0; Lock; Unlock])))
    = setup_calls 0 (snd (run (boot ++ [DocumentReady]))).
Proof.
  assert (has_initialized (fst (run (boot ++ [DocumentReady]))) 0 = true) as H
    by (vm_compute; reflexivity).
  split; [exact H|].
  exact (proj2 (X3_late_setup_is_never_called (boot ++ [DocumentReady])
                  [Ignite 0; Lock; Unlock] 0 (JFun sample_setup1) H)).
Defined.

Section QueuedValues.

Variable i : nat.

Lemma map_start_fn fs : map start_fn (map JFun fs) = fs.
Proof. induction fs as [|f fs IH]; simpl; [done|]. by rewrite IH. Qed.

Lemma call_not_callable p args v a :
  callable v = false → call i p args v a = (a, [], Throw).
Proof. by destruct v. Qed.

Lemma call_callable p args v a :
  callable v = true →
  call i p args v a =
    (set_config (fst (cb_run (start_fn v) (config a))) a,
     [Call i p (cb_name (start_fn v)) (args (config a))],
     match snd (cb_run (start_fn v) (config a)) with
     | Returns => Ok tt
     | Raises => Throw
     end).
Proof.
  destruct v as [f| | |m]; try done; intros _; apply (call_function i).
Qed.

(** The setup loop over values whose [call] is a function. *)
Lemma each_setup_runs vs : ∀ a,
  Forall (λ v, callable v = true) vs →
  Forall returns_normally (map start_fn vs) →
  each (call i PSetup (λ c, [AConfig c])) vs a =
    (set_config (after_setup (map start_fn vs) (config a)) a,
     setup_log i (map start_fn vs) (config a), Ok tt).
Proof.
  induction vs as [|v vs IH]; intros a Hc Hr; cbn [each map].
  - unfold ret. simpl. by rewrite set_config_id.
  - apply Forall_cons in Hc as [Hv Hc]. apply Forall_cons in Hr as [Hf Hr].
    unfold bind. rewrite (call_callable _ _ _ _ Hv), Hf, (IH _ Hc Hr). done.
Qed.

Lemma _initialize_runs a vs :
  setupCalls a = vs → Forall (λ v, callable v = true) vs →
  Forall returns_normally (map start_fn vs) →
  startCall a ≠ JTruthy → returns_normally (start_fn (startCall a)) →
  _initialize i a =
    (set_config
       (fst (cb_run (start_fn (startCall a))
               (after_setup (map start_fn vs) (config a))))
       (set_setupCalls [] (set_startCall JFalsy (set_hasInitialized true a))),
     [Enter i Initialize; Trigger i "setup:before" (Some (config a))] ++
     setup_log i (map start_fn vs) (config a) ++
     [Trigger i "setup:after" (Some (after_setup (map start_fn vs) (config a)));
      Trigger i "start:before" (Some (after_setup (map start_fn vs) (config a)));
      Call i PStart (cb_name (start_fn (startCall a)))
        [AConfig (after_setup (map start_fn vs) (config a))];
      Trigger i "start:after"
        (Some (fst (cb_run (start_fn (startCall a))
                      (after_setup (map start_fn vs) (config a)))))],
     Ok tt).
Proof.
  intros Hsetup Hc Hr Hstart Hg.
  rewrite _initialize_unfold, Hsetup, (each_setup_runs _ _ Hc Hr). simpl.
  assert (∀ x, call i PStart (λ c, [AConfig c])
                 (if truthy (startCall a) then startCall a else JFun noop) x
               = call i PStart (λ c, [AConfig c]) (JFun (start_fn (startCall a))) x)
    as Hcall by (intros x; by destruct (startCall a)).
  rewrite Hcall, call_function. simpl.
  by rewrite (Hg (after_setup (map start_fn vs) (config a))).
Qed.

End QueuedValues.

(** X4. The diagnostic of [setup] is advisory.  [setup] with a value that
    is not a function logs the diagnostic and queues the value all the
    same.  What the initialization does when it reaches the value depends
    on the value's [call] property.  When that is not a function, the
    initialization raises at the value's turn: the functions queued before
    it have run, the value is not logged as a call, nothing after it
    happens and [_hasInitialized] is already true.  When it is a function,
    the initialization runs it in the value's turn like a registered
    function and goes on to the end. *)
Theorem X4_non_function_setup (i : nat) (a : App) (v : jsval)
    (pre post : list callback) (rest : list jsval) :
  isFunction v = false →
  setup i v a =
    (set_setupCalls (setupCalls a ++ [v]) a,
     [ConsoleError "Setup must have a function."], Ok i) ∧
  (callable v = false →
   setupCalls a = map JFun pre ++ v :: rest →
   Forall returns_normally pre →
   _initialize i a =
     (set_config (after_setup pre (config a)) (initializing a),
      [Enter i Initialize; Trigger i "setup:before" (Some (config a))] ++
      setup_log i pre (config a),
      Throw)) ∧
  (callable v = true →
   setupCalls a = map JFun pre ++ v :: map JFun post →
   Forall returns_normally (pre ++ start_fn v :: post) →
   startCall a ≠ JTruthy → returns_normally (start_fn (startCall a)) →
   let fs := pre ++ start_fn v :: post in
   let c1 := after_setup fs (config a) in
   let g := start_fn (startCall a) in
   _initialize i a =
     (set_config (fst (cb_run g c1))
        (set_setupCalls [] (set_startCall JFalsy (set_hasInitialized true a))),
      [Enter i Initialize; Trigger i "setup:before" (Some (config a))] ++
      setup_log i fs (config a) ++
      [Trigger i "setup:after" (Some c1); Trigger i "start:before" (Some c1);
       Call i PStart (cb_name g) [AConfig c1];
       Trigger i "start:after" (Some (fst (cb_run g c1)))],
      Ok tt)).
Proof.
  intros Hv. split; [|split].
  - unfold setup, bind, modify, emit, ret. by rewrite Hv.
  - intros Hcall Hsetup Hpre. rewrite _initialize_unfold, Hsetup, each_app.
    unfold bind at 1. rewrite (each_setup_returns _ _ _ Hpre).
    cbn [each]. unfold bind. rewrite (call_not_callable _ _ _ _ _ Hcall).
    simpl. by rewrite app_nil_r.
  - intros Hcall Hsetup Hfs Hstart Hg fs c1 g.
    assert (map start_fn (setupCalls a) = fs) as Hmap.
    { rewrite Hsetup, map_app. simpl. by rewrite !map_start_fn. }
    subst c1 g. rewrite <- Hmap.
    apply _initialize_runs; [done| |by rewrite Hmap|done|done].
    rewrite Hsetup. apply Forall_app. split; [|constructor; [done|]];
      apply Forall_forall; by intros x (f & -> & _)%list_elem_of_fmap.
Qed.

Lemma X4_witness :
  let a := mkApp ∅ [JFun sample_setup1; JTruthy; JFun sample_setup2] JFalsy
                 JFalsy false false true true false false in
  let b := mkApp ∅ [JFun sample_setup1; JCallable sample_setup2] JFalsy
                 JFalsy false false true true false false in
  (isFunction JTruthy = false ∧ callable JTruthy = false ∧
   setupCalls a = map JFun [sample_setup1] ++ JTruthy :: [JFun sample_setup2] ∧
   Forall returns_normally [sample_setup1]) ∧
  snd (_initialize 0 a) = Throw ∧
  (isFunction (JCallable sample_setup2) = false ∧
   callable (JCallable sample_setup2) = true ∧
   setupCalls b = map JFun [sample_setup1] ++ JCallable sample_setup2 :: map JFun [] ∧
   Forall returns_normally ([sample_setup1] ++ sample_setup2 :: []) ∧
   startCall b ≠ JTruthy ∧ returns_normally (start_fn (startCall b))) ∧
  snd (_initialize 0 b) = Ok tt.
Proof.
  intros a b.
  assert (isFunction JTruthy = false) as H1 by reflexivity.
  assert (callable JTruthy = false) as H1' by reflexivity.
  assert (setupCalls a
          = map JFun [sample_setup1] ++ JTruthy :: [JFun sample_setup2]) as H2
    by reflexivity.
  assert (Forall returns_normally [sample_setup1]) as H3 by (repeat constructor).
  assert (isFunction (JCallable sample_setup2) = false) as K1 by reflexivity.
  assert (callable (JCallable sample_setup2) = true) as K1' by reflexivity.
  assert (setupCalls b
          = map JFun [sample_setup1] ++ JCallable sample_setup2 :: map JFun [])
    as K2 by reflexivity.
  assert (Forall returns_normally ([sample_setup1] ++ sample_setup2 :: []))
    as K3 by (repeat constructor).
  assert (startCall b ≠ JTruthy) as K4 by discriminate.
  assert (returns_normally (start_fn (startCall b))) as K5
    by (intros c; reflexivity).
  split; [by repeat split|]. split; [|split; [by repeat split|]].
  - by rewrite (proj1 (proj2 (X4_non_function_setup 0 a JTruthy [sample_setup1]
                         [] [JFun sample_setup2] H1)) H1' H2 H3).
  - by rewrite (proj2 (proj2 (X4_non_function_setup 0 b (JCallable sample_setup2)
                         [sample_setup1] [] [] K1)) K1' K2 K3 K4 K5).
Defined.

Section RegisterThenStart.

Lemma set_app_twice w i x y :
  set_apps (<[i:=y]> (_apps (set_apps (<[i:=x]> (_apps w)) w)))
           (set_apps (<[i:=x]> (_apps w)) w)
  = set_apps (<[i:=y]> (_apps w)) w.
Proof. unfold set_apps; simpl. by rewrite list_insert_insert_eq. Qed.

Lemma lookup_set_app w i x :
  i < length (_apps w) → _apps (set_apps (<[i:=x]> (_apps w)) w) !! i = Some x.
Proof. intros H. simpl. by apply list_lookup_insert_eq. Qed.

(** Registering functions one after the other appends them to the queue
    in that order and logs nothing. *)
Lemma run_from_setups i fs : ∀ w l a,
  _apps w !! i = Some a →
  run_from (w, l) (map (λ f, Setup i (JFun f)) fs) =
    (set_apps (<[i:=set_setupCalls (setupCalls a ++ map JFun fs) a]> (_apps w)) w,
     l).
Proof.
  induction fs as [|f fs IH]; intros w l a Hi.
  - simpl. rewrite app_nil_r.
    replace (set_setupCalls (setupCalls a) a) with a by (by destruct a).
    by rewrite (list_insert_id _ _ _ Hi), set_apps_id.
  - cbn [map].
    change (run_from (w, l) (Setup i (JFun f) :: map (λ f, Setup i (JFun f)) fs))
      with (run_from (step (w, l) (Setup i (JFun f)))
              (map (λ f, Setup i (JFun f)) fs)).
    unfold step; cbn [fst snd]. rewrite (perform_setup _ _ _ _ Hi). cbn [isFunction].
    rewrite app_nil_r.
    rewrite (IH _ l (set_setupCalls (setupCalls a ++ [JFun f]) a)
               (lookup_set_app _ _ _ (lookup_lt_Some _ _ _ Hi))).
    rewrite set_app_twice. simpl. by rewrite <- app_assoc.
Qed.

Lemma _initialize_normal i a fs g :
  setupCalls a = map JFun fs → Forall returns_normally fs →
  startCall a = JFun g → returns_normally g →
  _initialize i a =
    (set_config (fst (cb_run g (after_setup fs (config a))))
       (set_setupCalls [] (set_startCall JFalsy (set_hasInitialized true a))),
     [Enter i Initialize; Trigger i "setup:before" (Some (config a))] ++
     setup_log i fs (config a) ++
     [Trigger i "setup:after" (Some (after_setup fs (config a)));
      Trigger i "start:before" (Some (after_setup fs (config a)));
      Call i PStart (cb_name g) [AConfig (after_setup fs (config a))];
      Trigger i "start:after"
        (Some (fst (cb_run g (after_setup fs (config a)))))],
     Ok tt).
Proof.
  intros Hsetup Hfs Hstart Hg.
  rewrite _initialize_unfold, Hsetup, (each_setup_returns _ _ _ Hfs). simpl.
  rewrite Hstart. simpl. unfold bind, get, emit, modify; simpl.
  by rewrite (Hg (after_setup fs (config a))).
Qed.

End RegisterThenStart.

(** X2. Registration composes with the start as follows.  On an app that
    has not initialized and whose queue holds functions only, registering
    further functions with [setup], then a start function with [start],
    then calling [ignite] while the lock counter is not positive runs the
    initialization at once: the queued functions run first and the newly
    registered ones after them, in the order of registration, each on the
    [config] its predecessors left, and the start function runs last on
    the resulting [config].  Nothing is logged before the [ignite]. *)
Theorem X2_register_then_ignite (acts : list action) (i : nat) (a : App)
    (old fs : list callback) (g : callback) :
  _apps (fst (run acts)) !! i = Some a →
  _hasInitialized a = false →
  (_lockBarrier (fst (run acts)) ≤ 0)%Z →
  setupCalls a = map JFun old →
  Forall returns_normally (old ++ fs) →
  returns_normally g →
  snd (run (acts ++ map (λ f, Setup i (JFun f)) fs ++ [Start i (JFun g)]))
    = snd (run acts) ∧
  snd (run (acts ++ map (λ f, Setup i (JFun f)) fs ++
            [Start i (JFun g); Ignite i]))
    = snd (run acts) ++
      [Enter i Initialize; Trigger i "setup:before" (Some (config a))] ++
      setup_log i (old ++ fs) (config a) ++
      [Trigger i "setup:after" (Some (after_setup (old ++ fs) (config a)));
       Trigger i "start:before" (Some (after_setup (old ++ fs) (config a)));
       Call i PStart (cb_name g) [AConfig (after_setup (old ++ fs) (config a))];
       Trigger i "start:after"
         (Some (fst (cb_run g (after_setup (old ++ fs) (config a)))))].
Proof.
  intros Hi Hinit Hlock Hold Hfs Hg.
  pose proof (run_Inv acts) as HI.
  assert (_initialize_ran a = false) as Hran
    by (rewrite <- (inv_flag _ _ (inv_apps _ _ HI i a Hi)); done).
  pose proof (lookup_lt_Some _ _ _ Hi) as Hlt.
  set (a1 := set_setupCalls (setupCalls a ++ map JFun fs) a).
  set (a2 := set_startCall (JFun g) a1).
  assert (run (acts ++ map (λ f, Setup i (JFun f)) fs ++ [Start i (JFun g)])
          = (set_apps (<[i:=a2]> (_apps (fst (run acts)))) (fst (run acts)),
             snd (run acts))) as Hreg.
  { rewrite app_assoc, run_snoc, run_app.
    destruct (run acts) as [w l]; simpl in *.
    rewrite (run_from_setups i fs w l a Hi). fold a1.
    unfold step; cbn [fst snd].
    rewrite (perform_start i (JFun g) _ a1) by (by apply lookup_set_app).
    cbn [isFunction]. rewrite app_nil_r, set_app_twice. done. }
  split; [by rewrite Hreg|].
  replace (acts ++ map (λ f, Setup i (JFun f)) fs ++ [Start i (JFun g); Ignite i])
    with ((acts ++ map (λ f, Setup i (JFun f)) fs ++ [Start i (JFun g)])
          ++ [Ignite i])
    by (by rewrite <- !app_assoc).
  rewrite run_snoc, Hreg. unfold step; cbn [fst snd].
  destruct (run acts) as [w l]; simpl in Hi, Hlock, Hlt |- *.
  unfold discard, ignite, bind.
  assert (on_app i (modify (set_isIgnited true)) (set_apps (<[i:=a2]> (_apps w)) w)
          = (set_apps (<[i:=set_isIgnited true a2]> (_apps w)) w, [], Ok tt)) as ->.
  { unfold on_app. rewrite lookup_set_app by done. unfold modify.
    by rewrite set_app_twice. }
  rewrite (_check_unfold i _ (set_isIgnited true a2))
    by (by apply lookup_set_app).
  simpl. rewrite (proj2 (Z.ltb_ge _ _) Hlock).
  unfold on_app. rewrite lookup_set_app by done.
  rewrite this_initialize_first by done.
  rewrite (_initialize_normal i _ (old ++ fs) g);
    [|by (simpl; rewrite Hold, map_app)|done|done|done].
  simpl. by rewrite !app_nil_r.
Qed.

Lemma X2_witness :
  let acts := boot ++ [Setup 0 (JFun sample_setup1)] in
  let a := mkApp ∅ [JFun sample_setup1] JFalsy JFalsy false false true true
                 false false in
  (_apps (fst (run acts)) !! 0 = Some a ∧ _hasInitialized a = false ∧
   (_lockBarrier (fst (run acts)) ≤ 0)%Z ∧
   setupCalls a = map JFun [sample_setup1] ∧
   Forall returns_normally ([sample_setup1] ++ [sample_setup2]) ∧
   returns_normally sample_start) ∧
  snd (run (acts ++ map (λ f, Setup 0 (JFun f)) [sample_setup2] ++
            [Start 0 (JFun sample_start)])) = snd (run acts).
Proof.
  intros acts a.
  assert (_apps (fst (run acts)) !! 0 = Some a) as H1 by (vm_compute; reflexivity).
  assert (_hasInitialized a = false) as H2 by reflexivity.
  assert ((_lockBarrier (fst (run acts)) ≤ 0)%Z) as H3
    by (vm_compute; discriminate).
  assert (setupCalls a = map JFun [sample_setup1]) as H4 by reflexivity.
  assert (Forall returns_normally ([sample_setup1] ++ [sample_setup2])) as H5
    by (repeat constructor).
  assert (returns_normally sample_start) as H6 by (intros c; reflexivity).
  split; [by repeat split|].
  exact (proj1 (X2_register_then_ignite acts 0 a [sample_setup1] [sample_setup2]
                  sample_start H1 H2 H3 H4 H5 H6)).
Defined.

(** X7. [ignite] does not wait for the document: in every state of a run
    with a lock counter that is not positive it leaves the app initialized,
    ready or not.  Under a positive counter it only sets [_isIgnited] and
    logs nothing, and on an app that is initialized already it does the
    same, so calling it again is harmless.  *)
Theorem X7_ignite (acts : list action) (i : nat) (a : App) :
  _apps (fst (run acts)) !! i = Some a →
  ((_lockBarrier (fst (run acts)) ≤ 0)%Z →
     has_initialized (fst (fst (ignite i (fst (run acts))))) i = true) ∧
  ((0 < _lockBarrier (fst (run acts)))%Z ∨ _hasInitialized a = true →
     ignite i (fst (run acts)) =
       (set_apps (<[i:=set_isIgnited true a]> (_apps (fst (run acts))))
          (fst (run acts)), [], Ok i)).
Proof.
  intros Hi. pose proof (run_Inv acts) as HI.
  destruct (run acts) as [w l]; simpl in *.
  pose proof (lookup_lt_Some _ _ _ Hi) as Hlt.
  set (w1 := set_apps (<[i:=set_isIgnited true a]> (_apps w)) w).
  assert (on_app i (modify (set_isIgnited true)) w = (w1, [], Ok tt)) as Hset
    by (unfold on_app; by rewrite Hi).
  assert (_apps w1 !! i = Some (set_isIgnited true a)) as Hi1
    by (by apply lookup_set_app).
  assert (Inv w1 l) as HI1.
  { pose proof (wsafe_on_app i _ (set_isIgnited_safe i) _ _ _ _ Hset) as Hs.
    rewrite <- (app_nil_r l). by apply (ws_inv _ _ _ Hs). }
  split.
  - intros Hlock. unfold ignite, bind. rewrite Hset.
    destruct (_check_gate w1 l i _ HI1 Hi1) as [Hg _].
    destruct (_check i w1) as [[w2 es2] [[]|]]; simpl in *;
      rewrite Hg; unfold gate; simpl;
      rewrite (proj2 (Z.ltb_ge _ _) Hlock); simpl; apply orb_true_r.
  - intros Hcase. unfold ignite, bind. rewrite Hset.
    assert (_check i w1 = (w1, [], Ok tt)) as ->; [|done].
    destruct Hcase as [Hlock|Hinit].
    + by apply _check_locked.
    + apply (_check_ran i w1 _ Hi1). simpl.
      by rewrite <- (inv_flag _ _ (inv_apps _ _ HI i a Hi)).
Qed.

Lemma X7_witness :
  (_apps (fst (run boot)) !! 0 = Some (fresh_app true true) ∧
   (_lockBarrier (fst (run boot)) ≤ 0)%Z) ∧
  has_initialized (fst (fst (ignite 0 (fst (run boot))))) 0 = true.
Proof.
  assert (_apps (fst (run boot)) !! 0 = Some (fresh_app true true)) as H1
    by (vm_compute; reflexivity).
  assert ((_lockBarrier (fst (run boot)) ≤ 0)%Z) as H2
    by (vm_compute; discriminate).
  split; [by split|].
  exact (proj1 (X7_ignite boot 0 _ H1) H2).
Defined.

Section LockPairs.

Lemma unlock_still_locked w :
  (1 < _lockBarrier w)%Z →
  unlock w = (set_lockBarrier (_lockBarrier w - 1) w, [], Ok tt).
Proof.
  intros Hl. unfold unlock, _runChecks, bind, modify, get; simpl.
  rewrite each_check_locked by (simpl; lia). done.
Qed.

Lemma run_from_snoc st acts act :
  run_from st (acts ++ [act]) = step (run_from st acts) act.
Proof. unfold run_from. by rewrite fold_left_app. Qed.

End LockPairs.

(** X10. While the lock counter is positive, any number of [lock] calls
    followed by as many [unlock] calls changes nothing and logs nothing:
    locks nest, and only the [unlock] that brings the counter down to zero
    or below lets a check through. *)
Theorem X10_nested_locks (n : nat) (w : World) (l : list effect) :
  (0 < _lockBarrier w)%Z →
  run_from (w, l) (replicate n Lock ++ replicate n Unlock) = (w, l).
Proof.
  revert w. induction n as [|n IH]; intros w Hl; [done|].
  assert (replicate (S n) Lock ++ replicate (S n) Unlock
          = (Lock :: (replicate n Lock ++ replicate n Unlock)) ++ [Unlock]) as ->
    by (rewrite (replicate_S_end n Unlock); simpl; by rewrite app_assoc).
  rewrite run_from_snoc.
  change (run_from (w, l) (Lock :: (replicate n Lock ++ replicate n Unlock)))
    with (run_from (step (w, l) Lock) (replicate n Lock ++ replicate n Unlock)).
  unfold step at 2. simpl. unfold lock, modify. rewrite app_nil_r.
  rewrite IH by (simpl; lia).
  unfold step. cbn [fst snd perform].
  rewrite unlock_still_locked by (simpl; lia). simpl.
  rewrite app_nil_r. f_equal. destruct w; unfold set_lockBarrier; simpl.
  f_equal. lia.
Qed.

Lemma X10_witness :
  (0 < _lockBarrier (fst (run (boot ++ [Lock; DocumentReady]))))%Z ∧
  run_from (run (boot ++ [Lock; DocumentReady]))
    (replicate 3 Lock ++ replicate 3 Unlock)
  = run (boot ++ [Lock; DocumentReady]).
Proof.
  assert ((0 < _lockBarrier (fst (run (boot ++ [Lock; DocumentReady]))))%Z) as H
    by (vm_compute; reflexivity).
  split; [exact H|].
  rewrite (surjective_pairing (run (boot ++ [Lock; DocumentReady]))).
  exact (X10_nested_locks 3 _ _ H).
Defined.

Section Locality.

Lemma on_app_view_other {A} i j (m : Prog App A) w :
  app_safe i m → j ≠ i → view j (snd (fst (on_app i m w))) = [].
Proof.
  intros Hm Hij. unfold on_app. destruct (_apps w !! i) as [a|]; [|done].
  destruct (m a) as [[a' es] r] eqn:E; simpl.
  apply (step_owner _ _ _ _ (Hm _ _ _ _ E) j Hij).
Qed.

Lemma _check_view_other i j w :
  j ≠ i → view j (snd (fst (_check i w))) = [].
Proof.
  intros Hij. destruct (_apps w !! i) as [a|] eqn:Hi.
  - rewrite (_check_unfold _ _ _ Hi).
    destruct (0 <? _lockBarrier w)%Z; [done|].
    destruct (_isIgnited a || _isDocReady w); [|done].
    apply on_app_view_other; [apply this_initialize_safe|done].
  - unfold _check, bind. change (get w) with (w, @nil effect, Ok w). simpl.
    destruct (0 <? _lockBarrier w)%Z; [done|].
    by rewrite (on_app_missing _ _ _ Hi).
Qed.

Lemma method_calls_apps_only act i :
  target act = Some i → preserves apps_only (perform act).
Proof.
  destruct act; try done; intros _; simpl; unfold discard, ignite; pres.
Qed.

Lemma discard_on_app {A} i (m : Prog App A) w :
  fst (discard (on_app i m) w) = fst (on_app i m w).
Proof.
  unfold discard, bind. destruct (on_app i m w) as [[w' es] [x|]]; simpl; [|done].
  by rewrite app_nil_r.
Qed.

End Locality.

(** X11. A method call on one app is local to it.  [configure], [setup],
    [start], [end], [ignite] and [smother] on app [i] leave every other app
    exactly as it was, log no effect of another app, and change nothing of
    the module state besides the registry entry of [i]: not the lock
    counter, not the ready flag, not the listeners. *)
Theorem X11_method_calls_are_local (act : action) (i j : nat) (w : World) :
  target act = Some i → j ≠ i →
  _apps (fst (fst (perform act w))) !! j = _apps w !! j ∧
  view j (snd (fst (perform act w))) = [] ∧
  fst (fst (perform act w)) = set_apps (_apps (fst (fst (perform act w)))) w.
Proof.
  intros Ht Hij. split; [|split].
  - destruct act; try done; injection Ht as ->; simpl;
      rewrite ?discard_on_app; try (by apply on_app_other).
    unfold discard, ignite, bind.
    pose proof (on_app_other j i (modify (set_isIgnited true)) w Hij) as H1.
    destruct (on_app i (modify (set_isIgnited true)) w) as [[w1 es1] [[]|]];
      simpl in *; [|done].
    pose proof (_check_other j i w1 Hij) as H2.
    destruct (_check i w1) as [[w2 es2] [[]|]]; simpl in *; congruence.
  - destruct act; try done; injection Ht as ->; simpl;
      rewrite ?discard_on_app;
      try (apply on_app_view_other; [|done]);
      try apply configure_safe; try apply setup_safe; try apply start_safe;
      try apply end_safe; try apply smother_safe.
    unfold discard, ignite, bind.
    pose proof (on_app_view_other i j (modify (set_isIgnited true)) w
                  (set_isIgnited_safe i) Hij) as H1.
    destruct (on_app i (modify (set_isIgnited true)) w) as [[w1 es1] [[]|]];
      simpl in *; [|done].
    pose proof (_check_view_other i j w1 Hij) as H2.
    destruct (_check i w1) as [[w2 es2] [[]|]]; simpl in *;
      rewrite ?view_app, H1, H2; done.
  - destruct (perform act w) as [[w' es] r] eqn:E. simpl.
    by apply (method_calls_apps_only act i Ht) in E.
Qed.

Lemma X11_witness :
  (target (Ignite 0) = Some 0 ∧ 1 ≠ 0) ∧
  _apps (fst (fst (perform (Ignite 0)
           (fst (run (boot ++ [NewApp true true])))))) !! 1
  = _apps (fst (run (boot ++ [NewApp true true]))) !! 1.
Proof.
  assert (target (Ignite 0) = Some 0) as H1 by reflexivity.
  assert (1 ≠ 0) as H2 by lia.
  split; [by split|].
  exact (proj1 (X11_method_calls_are_local (Ignite 0) 0 1 _ H1 H2)).
Defined.

Section UnloadEvent.

Lemma this_unload_leaves_ran i a :
  _unload_ran (fst (fst (this_unload i a))) = true.
Proof.
  destruct (_unload_ran a) eqn:Hran.
  - by rewrite this_unload_ran.
  - destruct (_hasInitialized a) eqn:Hinit.
    + rewrite (this_unload_first_run _ _ Hinit Hran). unfold first_unload.
      by destruct (endCall a).
    + rewrite this_unload_first by done.
      unfold _unload, bind, get; simpl. by rewrite Hinit.
Qed.

(** A dispatch that returns normally has entered the one-shot of every
    listener. *)
Lemma each_unload_all_ran js : ∀ w w' es,
  each (λ i, on_app i (this_unload i)) js w = (w', es, Ok tt) →
  ∀ j, j ∈ js → ∃ a, _apps w' !! j = Some a ∧ _unload_ran a = true.
Proof.
  induction js as [|j0 js IH]; intros w w' es Heach j Hj.
  { by apply elem_of_nil in Hj. }
  simpl in Heach. unfold bind in Heach.
  destruct (on_app j0 (this_unload j0) w) as [[w1 es1] [[]|]] eqn:E1; [|done].
  destruct (each _ js w1) as [[w2 es2] r2] eqn:E2.
  injection Heach as <- <- ->.
  apply elem_of_cons in Hj as [->|Hj]; [|by eapply IH].
  unfold on_app in E1. destruct (_apps w !! j0) as [a|] eqn:Hj0; [|done].
  pose proof (this_unload_leaves_ran j0 a) as Hran.
  destruct (this_unload j0 a) as [[a' es'] r']. injection E1 as <- <- ->.
  simpl in Hran.
  pose proof (wsafe_each _ js (λ k, wsafe_on_app k _ (this_unload_safe k))
                _ _ _ _ E2) as S2.
  destruct (ws_apps _ _ _ S2 j0 a') as (b & Hb & Hmono).
  { simpl. apply list_lookup_insert_eq. by eapply lookup_lt_Some. }
  exists b. split; [done|]. by apply (mono_unload_ran _ _ Hmono).
Qed.

Lemma each_unload_noop js : ∀ w,
  (∀ j, j ∈ js → ∃ a, _apps w !! j = Some a ∧ _unload_ran a = true) →
  each (λ i, on_app i (this_unload i)) js w = (w, [], Ok tt).
Proof.
  induction js as [|j0 js IH]; intros w Hall; [done|].
  simpl. unfold bind.
  destruct (Hall j0 ltac:(by left)) as (a & Ha & Hran).
  rewrite (on_app_unchanged _ _ _ _ _ _ Ha (this_unload_ran j0 a Hran)).
  rewrite IH; [done|]. intros j Hj. apply Hall. by right.
Qed.

End UnloadEvent.

(** X12. The window-unload event is idempotent: after a dispatch that
    returned normally, another window-unload event changes nothing and
    logs nothing, whatever the apps and their end callbacks are. *)
Theorem X12_window_unload_is_idempotent (w w' : World) (es : list effect) :
  window_beforeunload w = (w', es, Ok tt) →
  window_beforeunload w' = (w', [], Ok tt).
Proof.
  intros E.
  pose proof (pres_bind same_listeners _ _ (pres_get same_listeners)
    (λ w0, pres_each same_listeners _ (on_window_unload w0)
             (λ k, pres_on_app same_listeners k (this_unload k))) _ _ _ _ E)
    as [_ Hu].
  unfold window_beforeunload, bind in E |- *.
  change (get ?x) with (x, @nil effect, Ok x) in E |- *. simpl in E |- *.
  destruct (each _ (on_window_unload w) w) as [[w1 es1] r1] eqn:E1.
  injection E as <- <- ->.
  rewrite Hu, (each_unload_noop _ _ (each_unload_all_ran _ _ _ _ E1)). done.
Qed.

Lemma X12_witness :
  snd (window_beforeunload
         (fst (run (boot ++ [End 0 (JFun sample_end); DocumentReady])))) = Ok tt ∧
  window_beforeunload
    (fst (fst (window_beforeunload
       (fst (run (boot ++ [End 0 (JFun sample_end); DocumentReady]))))))
  = (fst (fst (window_beforeunload
       (fst (run (boot ++ [End 0 (JFun sample_end); DocumentReady]))))),
     [], Ok tt).
Proof.
  assert (snd (window_beforeunload
         (fst (run (boot ++ [End 0 (JFun sample_end); DocumentReady])))) = Ok tt)
    as H by (vm_compute; reflexivity).
  split; [exact H|].
  destruct (window_beforeunload
         (fst (run (boot ++ [End 0 (JFun sample_end); DocumentReady]))))
    as [[w' es] r] eqn:E.
  simpl in H. subst r. exact (X12_window_unload_is_idempotent _ w' es E).
Defined.

Section Subscriptions.

Lemma Subscribed_W0 : Subscribed W0.
Proof.
  constructor; simpl.
  - intros i Hi. by apply elem_of_nil in Hi.
  - done.
  - done.
Qed.

Lemma constructed_app_class s e w :
  autoStart (if starts_at_construction s w then started_app s e else fresh_app s e)
    = s ∧
  autoEnd (if starts_at_construction s w then started_app s e else fresh_app s e)
    = e.
Proof. by destruct (starts_at_construction s w). Qed.

Lemma new_App_Subscribed s e w :
  Subscribed w → Subscribed (fst (fst (new_App s e w))).
Proof.
  intros [S1 S2 S3]. rewrite new_App_result. simpl.
  destruct (constructed_app_class s e w) as [Hs He].
  set (x := if starts_at_construction s w then started_app s e else fresh_app s e)
    in *.
  constructor; simpl.
  - intros i Hi.
    assert (i ∈ on_window_unload w ∨ (e = true ∧ i = length (_apps w)))
      as [Hold|[He' ->]].
    { destruct e; [|by left].
      apply elem_of_app in Hi as [?|?%list_elem_of_singleton]; [by left|by right]. }
    + destruct (S1 i Hold) as (a & Ha & Hauto). exists a.
      split; [by apply lookup_app_l_Some|done].
    + exists x. split; [apply lookup_last|congruence].
  - intros i a Hi Hauto.
    apply lookup_app_Some in Hi as [Hi|[Hge Hi]].
    + pose proof (S2 i a Hi Hauto) as Hin.
      destruct e; [apply elem_of_app; by left|done].
    + destruct (i - length (_apps w)) as [|k] eqn:Hk; [|done].
      simpl in Hi. injection Hi as <-. rewrite He in Hauto. rewrite Hauto.
      apply elem_of_app. right. apply list_elem_of_singleton. lia.
  - intros Hd i a Hi Hauto. rewrite Hd. rewrite andb_true_r.
    apply lookup_app_Some in Hi as [Hi|[Hge Hi]].
    + pose proof (S3 Hd i a Hi Hauto) as Hin.
      destruct s; [apply elem_of_app; by left|done].
    + destruct (i - length (_apps w)) as [|k] eqn:Hk; [|done].
      simpl in Hi. injection Hi as <-. rewrite Hs in Hauto. rewrite Hauto.
      apply elem_of_app. right. apply list_elem_of_singleton. lia.
Qed.

Lemma perform_Subscribed act w :
  Subscribed w → Subscribed (fst (fst (perform act w))).
Proof.
  intros HS. destruct (constructions [act]) eqn:Hc.
  - destruct (perform act w) as [[w' es] r] eqn:E. simpl.
    pose proof (other_actions_same_length act Hc _ _ _ _ E) as Hlen.
    pose proof (other_actions_same_listeners act Hc _ _ _ _ E) as [Hr Hu].
    pose proof (perform_safe act _ _ _ _ E) as Hs.
    destruct HS as [S1 S2 S3].
    assert (∀ i a', _apps w' !! i = Some a' →
              ∃ a, _apps w !! i = Some a ∧ app_mono a a') as Hback.
    { intros i a' Hi'. pose proof (lookup_lt_Some _ _ _ Hi') as Hlt.
      rewrite Hlen in Hlt. apply lookup_lt_is_Some_2 in Hlt as [a Hi].
      exists a. split; [done|].
      destruct (ws_apps _ _ _ Hs i a Hi) as (a'' & Hi'' & Hmono). congruence. }
    constructor.
    + intros i Hi. rewrite Hu in Hi. destruct (S1 i Hi) as (a & Ha & Hauto).
      destruct (ws_apps _ _ _ Hs i a Ha) as (a' & Ha' & Hmono).
      exists a'. split; [done|]. by rewrite (mono_autoEnd _ _ Hmono).
    + intros i a' Hi' Hauto. rewrite Hu.
      destruct (Hback i a' Hi') as (a & Hi & Hmono).
      apply (S2 i a Hi). by rewrite <- (mono_autoEnd _ _ Hmono).
    + intros Hd i a' Hi' Hauto. rewrite Hr.
      destruct (Hback i a' Hi') as (a & Hi & Hmono).
      apply (S3 ltac:(destruct (_isDocReady w) eqn:Hw;
                        [by rewrite (ws_isDocReady _ _ _ Hs Hw) in Hd|done])
                i a Hi).
      by rewrite <- (mono_autoStart _ _ Hmono).
  - destruct act; try done. simpl. unfold discard, bind.
    pose proof (new_App_Subscribed auto_start auto_end w HS) as H.
    destruct (new_App auto_start auto_end w) as [[w' es] [x|]]; done.
Qed.

Lemma run_from_Subscribed acts : ∀ st,
  Subscribed (fst st) → Subscribed (fst (run_from st acts)).
Proof.
  induction acts as [|act acts IH]; intros [w l] HS; [done|].
  change (run_from (w, l) (act :: acts)) with (run_from (step (w, l) act) acts).
  apply IH. unfold step. cbn [fst].
  pose proof (perform_Subscribed act w HS) as H.
  by destruct (perform act w) as [[w' es] r].
Qed.

Lemma run_Subscribed acts : Subscribed (fst (run acts)).
Proof. apply run_from_Subscribed, Subscribed_W0. Qed.

Lemma each_unload_other i js : ∀ w,
  i ∉ js →
  _apps (fst (fst (each (λ k, on_app k (this_unload k)) js w))) !! i = _apps w !! i ∧
  view i (snd (fst (each (λ k, on_app k (this_unload k)) js w))) = [].
Proof.
  induction js as [|j js IH]; intros w Hi; simpl; [done|].
  apply not_elem_of_cons in Hi as [Hij Hi].
  unfold bind.
  pose proof (on_app_other i j (this_unload j) w Hij) as H1.
  pose proof (on_app_view_other j i (this_unload j) w (this_unload_safe j) Hij)
    as H2.
  destruct (on_app j (this_unload j) w) as [[w1 es1] [[]|]]; simpl in *; [|done].
  destruct (IH w1 Hi) as [H3 H4].
  destruct (each _ js w1) as [[w2 es2] r2]; simpl in *.
  rewrite view_app, H2, H4. split; [congruence|done].
Qed.

End Subscriptions.

(** X8. In every state of a run, exactly the apps of a class with
    [autoEnd] listen to the window-unload event.  The event leaves an app
    of a class without [autoEnd] exactly as it is and logs nothing of it:
    such an app is unloaded by [smother] only. *)
Theorem X8_autoEnd_decides_the_unload_listener (acts : list action) (i : nat)
    (a : App) :
  _apps (fst (run acts)) !! i = Some a →
  (i ∈ on_window_unload (fst (run acts)) ↔ autoEnd a = true) ∧
  (autoEnd a = false →
     _apps (fst (fst (window_beforeunload (fst (run acts))))) !! i = Some a ∧
     view i (snd (fst (window_beforeunload (fst (run acts))))) = []).
Proof.
  intros Hi. pose proof (run_Subscribed acts) as [S1 S2 S3].
  destruct (run acts) as [w l]; simpl in *.
  assert (i ∈ on_window_unload w ↔ autoEnd a = true) as Hiff.
  { split; [|by apply S2].
    intros Hin. destruct (S1 i Hin) as (b & Hb & Hauto). congruence. }
  split; [done|]. intros Hauto.
  assert (i ∉ on_window_unload w) as Hnot
    by (intros Hin; apply Hiff in Hin; congruence).
  unfold window_beforeunload, bind.
  change (get w) with (w, @nil effect, Ok w). simpl.
  destruct (each_unload_other i (on_window_unload w) w Hnot) as [H1 H2].
  destruct (each _ (on_window_unload w) w) as [[w1 es1] r1]; simpl in *.
  split; [congruence|done].
Qed.

Lemma X8_witness :
  let acts := boot ++ [NewApp true false; DocumentReady] in
  (_apps (fst (run acts)) !! 1 = Some (started_app true false) ∧
   autoEnd (started_app true false) = false) ∧
  _apps (fst (fst (window_beforeunload (fst (run acts))))) !! 1
    = Some (started_app true false).
Proof.
  intros acts.
  assert (_apps (fst (run acts)) !! 1 = Some (started_app true false)) as H1
    by (vm_compute; reflexivity).
  assert (autoEnd (started_app true false) = false) as H2 by reflexivity.
  split; [by split|].
  exact (proj1 (proj2 (X8_autoEnd_decides_the_unload_listener acts 1 _ H1) H2)).
Defined.

(** X9. The document-ready event starts what was waiting for it.  In a
    state of a run where the document is not yet ready: under a positive
    lock counter the event only sets the ready flag and logs nothing; with
    a counter that is not positive, a dispatch that returns normally
    leaves every app of a class with [autoStart] initialized. *)
Theorem X9_document_ready_starts_the_autoStart_apps (acts : list action)
    (i : nat) (a : App) :
  _isDocReady (fst (run acts)) = false →
  _apps (fst (run acts)) !! i = Some a →
  autoStart a = true →
  i ∈ on_document_ready (fst (run acts)) ∧
  ((0 < _lockBarrier (fst (run acts)))%Z →
     document_ready (fst (run acts))
       = (set_isDocReady true (fst (run acts)), [], Ok tt)) ∧
  ((_lockBarrier (fst (run acts)) ≤ 0)%Z →
   ∀ w' es, document_ready (fst (run acts)) = (w', es, Ok tt) →
     has_initialized w' i = true).
Proof.
  intros Hd Hi Hauto. pose proof (run_Subscribed acts) as [S1 S2 S3].
  pose proof (run_Inv acts) as HI.
  destruct (run acts) as [w l]; simpl in *.
  pose proof (S3 Hd i a Hi Hauto) as Hin.
  split; [done|]. split.
  - intros Hl. unfold document_ready, bind, modify.
    change (get ?x) with (x, @nil effect, Ok x). simpl.
    rewrite each_check_locked by done. done.
  - intros Hl w' es. unfold document_ready, bind, modify.
    change (get ?x) with (x, @nil effect, Ok x). simpl.
    destruct (each _check _ _) as [[w1 es1] r1] eqn:E. intros [= <- <- ->].
    assert (Inv (set_isDocReady true w) l) as HI'
      by (destruct HI as [I1 I2 I3]; by constructor).
    apply (each_check_initializes _ _ l _ _ HI' ltac:(done) E i a Hin Hi).
    simpl. apply orb_true_r.
Qed.

Lemma X9_witness :
  (_isDocReady (fst (run boot)) = false ∧
   _apps (fst (run boot)) !! 0 = Some (fresh_app true true) ∧
   autoStart (fresh_app true true) = true ∧
   (_lockBarrier (fst (run boot)) ≤ 0)%Z ∧
   snd (document_ready (fst (run boot))) = Ok tt) ∧
  has_initialized (fst (fst (document_ready (fst (run boot))))) 0 = true.
Proof.
  assert (_isDocReady (fst (run boot)) = false) as H1 by (vm_compute; reflexivity).
  assert (_apps (fst (run boot)) !! 0 = Some (fresh_app true true)) as H2
    by (vm_compute; reflexivity).
  assert (autoStart (fresh_app true true) = true) as H3 by reflexivity.
  assert ((_lockBarrier (fst (run boot)) ≤ 0)%Z) as H4
    by (vm_compute; discriminate).
  assert (snd (document_ready (fst (run boot))) = Ok tt) as H5
    by (vm_compute; reflexivity).
  split; [by repeat split|].
  destruct (document_ready (fst (run boot))) as [[w' es] r] eqn:E.
  simpl in H5. subst r.
  exact (proj2 (proj2 (X9_document_ready_starts_the_autoStart_apps boot 0 _
                         H1 H2 H3)) H4 w' es E).
Defined.

Section LastWriter.


Lemma step_log st act :
  snd (step st act) = snd st ++ snd (fst (perform act (fst st))).
Proof. unfold step. by destruct (perform act (fst st)) as [[w' es] r]. Qed.

(** [ignite] on an app that has not initialized, with functions that
    return normally, under a counter that is not positive. *)
Lemma perform_ignite_normal i w a fs g :
  _apps w !! i = Some a → _initialize_ran a = false →
  (_lockBarrier w ≤ 0)%Z →
  setupCalls a = map JFun fs → Forall returns_normally fs →
  startCall a = JFun g → returns_normally g →
  snd (fst (perform (Ignite i) w)) =
    [Enter i Initialize; Trigger i "setup:before" (Some (config a))] ++
    setup_log i fs (config a) ++
    [Trigger i "setup:after" (Some (after_setup fs (config a)));
     Trigger i "start:before" (Some (after_setup fs (config a)));
     Call i PStart (cb_name g) [AConfig (after_setup fs (config a))];
     Trigger i "start:after" (Some (fst (cb_run g (after_setup fs (config a)))))].
Proof.
  intros Hi Hran Hlock Hsetup Hfs Hstart Hg.
  pose proof (lookup_lt_Some _ _ _ Hi) as Hlt.
  simpl. unfold discard, ignite, bind.
  assert (on_app i (modify (set_isIgnited true)) w
          = (set_apps (<[i:=set_isIgnited true a]> (_apps w)) w, [], Ok tt)) as ->
    by (unfold on_app; by rewrite Hi).
  rewrite (_check_unfold i _ (set_isIgnited true a)) by (by apply lookup_set_app).
  simpl. rewrite (proj2 (Z.ltb_ge _ _) Hlock).
  unfold on_app. rewrite lookup_set_app by done.
  rewrite this_initialize_first by done.
  rewrite (_initialize_normal i _ fs g) by done.
  simpl. by rewrite !app_nil_r.
Qed.

End LastWriter.

(** X13. [start] keeps one value, the last one: on an app that has not
    initialized, a value handed to [start] and then replaced by a function
    is never called; the initialization calls the function registered
    last, once, after the queued setup functions. *)
Theorem X13_last_start_wins (acts : list action) (i : nat) (a : App)
    (fs : list callback) (v : jsval) (g : callback) :
  _apps (fst (run acts)) !! i = Some a →
  _hasInitialized a = false →
  (_lockBarrier (fst (run acts)) ≤ 0)%Z →
  setupCalls a = map JFun fs → Forall returns_normally fs →
  returns_normally g →
  snd (run (acts ++ [Start i v; Start i (JFun g); Ignite i]))
    = snd (run acts) ++
      (if isFunction v then [] else [ConsoleError "Start must have a function."]) ++
      [Enter i Initialize; Trigger i "setup:before" (Some (config a))] ++
      setup_log i fs (config a) ++
      [Trigger i "setup:after" (Some (after_setup fs (config a)));
       Trigger i "start:before" (Some (after_setup fs (config a)));
       Call i PStart (cb_name g) [AConfig (after_setup fs (config a))];
       Trigger i "start:after"
         (Some (fst (cb_run g (after_setup fs (config a)))))].
Proof.
  intros Hi Hinit Hlock Hsetup Hfs Hg.
  pose proof (run_Inv acts) as HI.
  assert (_initialize_ran a = false) as Hran
    by (rewrite <- (inv_flag _ _ (inv_apps _ _ HI i a Hi)); done).
  pose proof (lookup_lt_Some _ _ _ Hi) as Hlt.
  change [Start i v; Start i (JFun g); Ignite i]
    with ([Start i v] ++ [Start i (JFun g)] ++ [Ignite i]).
  rewrite !app_assoc, !run_snoc.
  destruct (run acts) as [w l]; simpl in Hi, Hlock, Hlt |- *.
  unfold step at 3; cbn [fst snd]. rewrite (perform_start _ _ _ _ Hi).
  unfold step at 2; cbn [fst snd].
  rewrite (perform_start i (JFun g) _ (set_startCall v a))
    by (by apply lookup_set_app).
  cbn [isFunction]. rewrite set_app_twice, app_nil_r.
  rewrite step_log; cbn [fst snd].
  rewrite (perform_ignite_normal i _ (set_startCall (JFun g) (set_startCall v a))
             fs g); try done; [|by apply lookup_set_app].
  simpl. by rewrite <- !app_assoc.
Qed.

Lemma X13_witness :
  (_apps (fst (run boot)) !! 0 = Some (fresh_app true true) ∧
   _hasInitialized (fresh_app true true) = false ∧
   (_lockBarrier (fst (run boot)) ≤ 0)%Z ∧
   setupCalls (fresh_app true true) = map JFun [] ∧
   Forall returns_normally [] ∧
   returns_normally sample_start) ∧
  start_calls 0
    (snd (run (boot ++ [Start 0 (JFun sample_failing); Start 0 (JFun sample_start);
                        Ignite 0]))) = 1.
Proof.
  assert (_apps (fst (run boot)) !! 0 = Some (fresh_app true true)) as H1
    by (vm_compute; reflexivity).
  assert (_hasInitialized (fresh_app true true) = false) as H2 by reflexivity.
  assert ((_lockBarrier (fst (run boot)) ≤ 0)%Z) as H3
    by (vm_compute; discriminate).
  assert (setupCalls (fresh_app true true) = map JFun []) as H4 by reflexivity.
  assert (Forall returns_normally []) as H5 by constructor.
  assert (returns_normally sample_start) as H6 by (intros c; reflexivity).
  split; [by repeat split|].
  rewrite (X13_last_start_wins boot 0 _ [] (JFun sample_failing) sample_start
             H1 H2 H3 H4 H5 H6).
  vm_compute. reflexivity.
Defined.


